(** * config_decoder: streaming decode, split and enrich of a Config snapshot

    A shallow embedding of [config_decoder/snapshot.go] and of the status
    aggregation loop of the command that drives it.

    - The JSON decoder of the Go standard library is modelled by the stream
      of tokens it reports ([Token], [More], [Decode]).  The stream is any
      list of tokens: the grammar of keys and values that the decoder itself
      enforces is not imposed on it, so that every branch of the program is
      covered.
    - The producer goroutine of [DecodeAndSplitItems] is a function from that
      stream to the sequence of channel operations it performs.  Nothing the
      other goroutines do can change that sequence, only delay it.
    - The metadata map and its nested [config_snapshot] map live in an
      explicit heap, because every emitted item holds a reference to them.
    - The writer pool and the caller's select / drain loops are a labelled
      transition system over the producer's remaining channel operations.
      The caller leaves its select loop through the error channel; its
      deadline and the signal handler are outside the model, and so is what
      the workers print. *)

From stdpp Require Import gmap strings list fin_maps relations.
From Stdlib Require Import ZArith Lia.

Set Warnings "-register-all".

(** ** Go values *)

(** Go's [int] on the 64-bit targets the program is built for. *)
Definition wrap_int (z : Z) : Z := ((z + 2 ^ 63) mod 2 ^ 64 - 2 ^ 63)%Z.

(** Heap locations of the maps that are shared by reference. *)
Abbreviation loc := nat.

(** Values of type [any] ([interface{}]).  Values built by the JSON decoder
    are never mutated after decoding and are kept as trees, a [float64] by
    its literal; [AMapRef] is a reference to a map allocated by the program
    itself with [make]. *)
Inductive any :=
  | ANil
  | ABool (b : bool)
  | AFloat64 (lit : string)
  | AString (s : string)
  | ASlice (l : list any)
  | AMap (m : gmap string any)
  | AMapRef (l : loc).

(** The two map types the program allocates: [map[string]any] and
    [map[string]string]. *)
Inductive mapobj :=
  | MapAny (m : gmap string any)
  | MapString (m : gmap string string).

Abbreviation heap := (gmap nat mapobj).

(** [make(map[K]V)]: a fresh location holding an empty map. *)
Definition make (h : heap) (o : mapobj) : loc * heap :=
  let l := fresh (dom h) in (l, <[l := o]> h).

(** Reading through a reference of static type [map[string]any]. *)
Definition map_any (h : heap) (l : loc) : gmap string any :=
  match h !! l with
  | Some (MapAny m) => m
  | _ => ∅
  end.

(** ** The token stream of [json.Decoder] *)

Inductive delim := LBracket | RBracket | LBrace | RBrace.

(** What [Decoder.Token] can report, commas and colons elided as the decoder
    does.  [TInvalid] stands for input the decoder cannot tokenise; it is
    never returned as a token, [Token] reports a syntax error there. *)
Inductive token :=
  | TDelim (c : delim)
  | TBool (b : bool)
  | TFloat64 (lit : string)
  | TString (s : string)
  | TNil
  | TInvalid.

#[global] Instance delim_eq_dec : EqDecision delim.
Proof. solve_decision. Defined.
#[global] Instance token_eq_dec : EqDecision token.
Proof. solve_decision. Defined.

(** Arguments of a format string. *)
Inductive arg :=
  | ArgString (s : string)
  | ArgToken (t : token).

(** Go [error] values: the decoder's own errors, the writers' errors, and
    [fmt.Errorf] with its format string, its arguments and the error it wraps
    with [%w], if any. *)
Inductive error :=
  | EOF
  | SyntaxError
  | UnmarshalTypeError
  | WriterError (msg : string)
  | Errorf (format : string) (args : list arg) (wrapped : option error).

(** [dec.Token()]. *)
Definition Token (d : list token) : (token + error) * list token :=
  match d with
  | [] => (inr EOF, [])
  | TInvalid :: d' => (inr SyntaxError, d')
  | t :: d' => (inl t, d')
  end.

(** [dec.More()]: the next token exists and does not close a compound. *)
Definition More (d : list token) : bool :=
  match d with
  | [] => false
  | TDelim RBracket :: _ | TDelim RBrace :: _ => false
  | _ :: _ => true
  end.

(** The parse state of [dec.Decode]: the compounds that are still open. *)
Inductive frame :=
  | InSlice (acc : list any)
  | InMapKey (m : gmap string any)
  | InMapValue (m : gmap string any) (k : string).

(** A complete value [v] is handed to the innermost open compound, or is the
    result when none is open. *)
Definition plug (stk : list frame) (v : any) : list frame + any :=
  match stk with
  | [] => inr v
  | InSlice acc :: s => inl (InSlice (acc ++ [v]) :: s)
  | InMapValue m k :: s => inl (InMapKey (<[k := v]> m) :: s)
  | InMapKey m :: s => inl (InMapKey m :: s)
  end.

Definition scalar_of (t : token) : option any :=
  match t with
  | TBool b => Some (ABool b)
  | TFloat64 x => Some (AFloat64 x)
  | TString s => Some (AString s)
  | TNil => Some ANil
  | TDelim _ | TInvalid => None
  end.

(** The decoder's limit on the number of compounds open at once inside one
    decoded value. *)
Definition maxNestingDepth : Z := 10000.

Definition can_open (stk : list frame) : bool :=
  (Z.of_nat (length stk) <? maxNestingDepth)%Z.

(** Reads exactly one JSON value into an [any]; [None] is a syntax error
    (invalid input, a compound closed by the wrong delimiter, a non-string
    object key, nesting beyond the limit, or the end of the input inside the
    value). *)
Fixpoint decode_run (stk : list frame) (d : list token) : option (any * list token) :=
  match d with
  | [] => None
  | t :: d' =>
      let done s v :=
        match plug s v with
        | inl s' => decode_run s' d'
        | inr v' => Some (v', d')
        end in
      match stk, t with
      | InMapKey m :: s, TString k => decode_run (InMapValue m k :: s) d'
      | InMapKey m :: s, TDelim RBrace => done s (AMap m)
      | InMapKey _ :: _, _ => None
      | InSlice acc :: s, TDelim RBracket => done s (ASlice acc)
      | _, TDelim LBracket =>
          if can_open stk then decode_run (InSlice [] :: stk) d' else None
      | _, TDelim LBrace =>
          if can_open stk then decode_run (InMapKey ∅ :: stk) d' else None
      | _, _ =>
          match scalar_of t with
          | Some v => done stk v
          | None => None
          end
      end
  end.

(** [dec.Decode(&v)] with [v] a nil [map[string]any]: an object is stored as
    a new map, [null] leaves [v] nil without error, any other value leaves
    [v] nil with an [UnmarshalTypeError], invalid input leaves [v] nil with a
    [SyntaxError]. *)
Definition Decode (d : list token)
  : option (gmap string any) * option error * list token :=
  match decode_run [] d with
  | None => (None, Some SyntaxError, d)
  | Some (AMap m, d') => (Some m, None, d')
  | Some (ANil, d') => (None, None, d')
  | Some (_, d') => (None, Some UnmarshalTypeError, d')
  end.

(** ** Source documents *)

(** JSON documents as syntax trees; object members keep their order and
    their duplicates. *)
Inductive json :=
  | JNull
  | JBool (b : bool)
  | JNumber (lit : string)
  | JString (s : string)
  | JArray (l : jlist)
  | JObject (ms : jmembers)
with jlist :=
  | JNil
  | JCons (j : json) (l : jlist)
with jmembers :=
  | MNil
  | MCons (k : string) (v : json) (ms : jmembers).

Scheme json_mind := Induction for json Sort Prop
  with jlist_mind := Induction for jlist Sort Prop
  with jmembers_mind := Induction for jmembers Sort Prop.
Combined Scheme json_mutind from json_mind, jlist_mind, jmembers_mind.

(** The tokens the decoder reports for a document. *)
Fixpoint tokens_of (j : json) : list token :=
  match j with
  | JNull => [TNil]
  | JBool b => [TBool b]
  | JNumber x => [TFloat64 x]
  | JString s => [TString s]
  | JArray l => TDelim LBracket :: tokens_of_list l ++ [TDelim RBracket]
  | JObject ms => TDelim LBrace :: tokens_of_members ms ++ [TDelim RBrace]
  end
with tokens_of_list (l : jlist) : list token :=
  match l with
  | JNil => []
  | JCons j l' => tokens_of j ++ tokens_of_list l'
  end
with tokens_of_members (ms : jmembers) : list token :=
  match ms with
  | MNil => []
  | MCons k v ms' => TString k :: tokens_of v ++ tokens_of_members ms'
  end.

(** The Go value a document decodes to; a later duplicate key overwrites an
    earlier one. *)
Fixpoint to_any (j : json) : any :=
  match j with
  | JNull => ANil
  | JBool b => ABool b
  | JNumber x => AFloat64 x
  | JString s => AString s
  | JArray l => ASlice (to_slice l [])
  | JObject ms => AMap (to_map ms ∅)
  end
with to_slice (l : jlist) (acc : list any) : list any :=
  match l with
  | JNil => acc
  | JCons j l' => to_slice l' (acc ++ [to_any j])
  end
with to_map (ms : jmembers) (acc : gmap string any) : gmap string any :=
  match ms with
  | MNil => acc
  | MCons k v ms' => to_map ms' (<[k := to_any v]> acc)
  end.

(** Nesting depth of a document: the number of delimiters open at once. *)
Fixpoint depth (j : json) : Z :=
  match j with
  | JArray l => (1 + depth_list l)%Z
  | JObject ms => (1 + depth_members ms)%Z
  | _ => 0%Z
  end
with depth_list (l : jlist) : Z :=
  match l with
  | JNil => 0%Z
  | JCons j l' => Z.max (depth j) (depth_list l')
  end
with depth_members (ms : jmembers) : Z :=
  match ms with
  | MNil => 0%Z
  | MCons _ v ms' => Z.max (depth v) (depth_members ms')
  end.

(** ** The producer: [DecodeAndSplitItems] and its helpers *)

(** [ItemTransformSpec]: [Fields] maps a source key to its destination key
    (the empty string keeps the source name); [ItemsField] names the array
    to split. *)
Record ItemTransformSpec := {
  Fields : gmap string string;
  ItemsField : string;
}.

(** What the producer goroutine does to the outside: writes to the standard
    streams and operations on its two channels. *)
Inductive event :=
  | Print (msg : string)
  | SendItem (v : gmap string any)
  | SendError (e : error)
  | CloseErrors
  | CloseItems.

(** How a piece of code ends: normally with a result, by a run-time panic,
    or (in the model only) because the recursion budget was used up. *)
Inductive completion (A : Type) :=
  | Normal (a : A)
  | Panic (msg : string)
  | Exhausted.
Arguments Normal {A} a.
Arguments Panic {A} msg.
Arguments Exhausted {A}.

Definition snapshotKey : string := "config_snapshot".

(** [addMetadata(metadata, key, val)].  The nested map is created on first
    use, before the type of [val] is looked at. *)
Definition addMetadata (h : heap) (metadata : loc) (key : string) (val : token)
  : heap * completion (option error) :=
  let h1 :=
    match map_any h metadata !! snapshotKey with
    | Some _ => h
    | None =>
        let '(l, h') := make h (MapString ∅) in
        <[metadata := MapAny (<[snapshotKey := AMapRef l]> (map_any h' metadata))]> h'
    end in
  let skMap := map_any h1 metadata !! snapshotKey in
  match val with
  | TString s =>
      match skMap with
      | Some (AMapRef l) =>
          match h1 !! l with
          | Some (MapString m) => (<[l := MapString (<[key := s]> m)]> h1, Normal None)
          | _ => (h1, Panic "interface conversion: interface {} is not map[string]string")
          end
      | _ => (h1, Panic "interface conversion: interface {} is not map[string]string")
      end
  | _ =>
      (h1, Normal (Some (Errorf "addMetadata: value %[1]v is not a string type, but a %[1]T"
                           [ArgToken val] None)))
  end.

(** [expect(d, expectedT)]. *)
Definition expect (d : list token) (expectedT : token) : option error * list token :=
  match Token d with
  | (inr err, d') => (Some (Errorf "expect: %w" [] (Some err)), d')
  | (inl t, d') =>
      if decide (t = expectedT) then (None, d')
      else (Some (Errorf "got token %v, want token %v" [ArgToken t; ArgToken expectedT] None), d')
  end.

(** The loop of [skip], with the counter [n] as its state: one token is read
    per iteration. *)
Fixpoint skip_loop (n : Z) (d : list token) : option error * list token :=
  match d with
  | [] => (Some (Errorf "skip: %w" [] (Some EOF)), [])
  | TInvalid :: d' => (Some (Errorf "skip: %w" [] (Some SyntaxError)), d')
  | t :: d' =>
      let n' :=
        match t with
        | TDelim LBracket | TDelim LBrace => wrap_int (n + 1)
        | TDelim RBracket | TDelim RBrace => wrap_int (n - 1)
        | _ => n
        end in
      if (n' =? 0)%Z then (None, d') else skip_loop n' d'
  end.

(** [skip(d)]. *)
Definition skip (d : list token) : option error * list token := skip_loop 0 d.

(** The item sent for a decoded element [v]: [v["metadata"] = metadata],
    then every entry of the metadata map is copied into [v]. *)
Definition enrich (h : heap) (metadata : loc) (v : gmap string any) : gmap string any :=
  map_fold (λ key val acc, <[key := val]> acc)
           (<["metadata" := AMapRef metadata]> v)
           (map_any h metadata).

(** The loop of [decodeItems].  A decode error is sent on [cErrors] and the
    loop body goes on with the value that was (not) decoded. *)
Fixpoint decodeItems_loop (fuel : nat) (h : heap) (metadata : loc) (d : list token)
  : list event * completion (option error) * list token :=
  match fuel with
  | O => ([], Exhausted, d)
  | S fuel' =>
      if More d then
        let '(v, err, d1) := Decode d in
        let reported :=
          match err with
          | Some e => [SendError (Errorf "decodeItems: %w" [] (Some e))]
          | None => []
          end in
        match v with
        | None => (reported, Panic "assignment to entry in nil map", d1)
        | Some m =>
            let '(evs, c, d2) := decodeItems_loop fuel' h metadata d1 in
            (reported ++ SendItem (enrich h metadata m) :: evs, c, d2)
        end
      else ([], Normal None, d)
  end.

(** [decodeItems(dec, metadata, cItems, cErrors)]. *)
Definition decodeItems (fuel : nat) (h : heap) (metadata : loc) (d : list token)
  : list event * completion (option error) * list token :=
  match expect d (TDelim LBracket) with
  | (Some err, d') =>
      ([], Normal (Some (Errorf "decodeItems: begin bracket not found: %w" [] (Some err))), d')
  | (None, d') => decodeItems_loop fuel h metadata d'
  end.

Definition is_delim (t : token) : bool :=
  match t with TDelim _ => true | _ => false end.

(** The [for dec.More()] loop of the producer goroutine.  The result is the
    events in order, the heap at the end, and how the goroutine body ended
    ([Normal tt] for every [return] and for falling off the loop). *)
Fixpoint scan_loop (fuel : nat) (spec : ItemTransformSpec) (h : heap) (metadata : loc)
    (d : list token) : list event * heap * completion unit :=
  match fuel with
  | O => ([], h, Exhausted)
  | S fuel' =>
      if More d then
        match Token d with
        | (inr err, _) =>
            ([SendError (Errorf "DecodeAndSplitItems: %w" [] (Some err))], h, Normal tt)
        | (inl (TString f), d1) =>
            if decide (f = ItemsField spec) then
              let '(evs, c, d2) := decodeItems fuel' h metadata d1 in
              let evs := Print "handling %s array..." :: evs in
              match c with
              | Normal (Some err) =>
                  (evs ++ [SendError (Errorf "DecodeAndSplitItems: %w" [] (Some err))],
                   h, Normal tt)
              | Normal None =>
                  let '(evs', h', c') := scan_loop fuel' spec h metadata d2 in
                  (evs ++ evs', h', c')
              | Panic msg => (evs, h, Panic msg)
              | Exhausted => (evs, h, Exhausted)
              end
            else
              match Fields spec !! f with
              | Some tfv =>
                  match Token d1 with
                  | (inr err, _) =>
                      ([SendError
                          (Errorf "DecodeAndSplitItems: error getting token for field %q: %w"
                                  [ArgString f] (Some err))], h, Normal tt)
                  | (inl v, d2) =>
                      if is_delim v then
                        ([SendError
                            (Errorf "DecodeAndSplitItems: %s value %s is of unexpected type json.Delim"
                                    [ArgString f; ArgToken v] None)], h, Normal tt)
                      else
                        let tfv := if decide (tfv = "") then f else tfv in
                        match addMetadata h metadata tfv v with
                        | (h', Normal (Some err)) =>
                            ([SendError (Errorf "DecodeAndSplitItems: %w" [] (Some err))],
                             h', Normal tt)
                        | (h', Normal None) => scan_loop fuel' spec h' metadata d2
                        | (h', Panic msg) => ([], h', Panic msg)
                        | (h', Exhausted) => ([], h', Exhausted)
                        end
                  end
              | None =>
                  match skip d1 with
                  | (Some err, _) =>
                      ([Print "skipping field %q";
                        SendError (Errorf "DecodeAndSplitItems: %w" [] (Some err))], h, Normal tt)
                  | (None, d2) =>
                      let '(evs', h', c') := scan_loop fuel' spec h metadata d2 in
                      (Print "skipping field %q" :: evs', h', c')
                  end
              end
        | (inl _, d1) =>
            let '(evs', h', c') := scan_loop fuel' spec h metadata d1 in
            (Print "token %v is not of type string" :: evs', h', c')
        end
      else ([Print "decoder goroutine ended normally"], h, Normal tt)
  end.

(** One run of the producer goroutine. *)
Record run := {
  trace : list event;
  heap_end : heap;
  metadata_loc : loc;
  ending : completion unit;
}.

(** The metadata map built by [DecodeAndSplitItems] before the goroutine
    starts; [now] is the formatted [time.Now()]. *)
Definition initial_metadata (now : string) : gmap string any :=
  <["ingest_time" := AString now]>
    (<["event_source" := AString "something_useful"]>
       (<["event_type" := AString "config_snapshot"]> ∅)).

(** The goroutine started by [DecodeAndSplitItems] on the input [r].  The two
    deferred [close] calls run last in first out, whether the body returns
    or panics. *)
Definition producer (spec : ItemTransformSpec) (now : string) (r : list token) : run :=
  let '(metadata, h) := make ∅ (MapAny (initial_metadata now)) in
  let '(evs, h', c) :=
    match expect r (TDelim LBrace) with
    | (Some err, _) =>
        ([SendError (Errorf "DecodeAndSplitItems: %w" [] (Some err))], h, Normal tt)
    | (None, d) => scan_loop (S (length r)) spec h metadata d
    end in
  {| trace := evs ++ [CloseErrors; CloseItems];
     heap_end := h';
     metadata_loc := metadata;
     ending := c |}.

(** The items sent on the distribution queue, in order. *)
Definition items_of (evs : list event) : list (gmap string any) :=
  omap (λ e, match e with SendItem v => Some v | _ => None end) evs.

(** The errors sent on the error channel, in order. *)
Definition errors_of (evs : list event) : list error :=
  omap (λ e, match e with SendError err => Some err | _ => None end) evs.

(** ** Writers *)

(** The [ItemWriter] interface: a value with a [Write] method.  [None] is a
    nil error. *)
Record ItemWriter := {
  Write : gmap string any → option error;
}.

(** [NullWriter] does nothing. *)
Definition NullWriter : ItemWriter := {| Write := λ _, None |}.

Definition NullWriterFactory : unit → ItemWriter := λ _, NullWriter.

(** An [io.Writer], as far as its caller can tell: the number of bytes
    written and the error. *)
Record io_Writer := {
  io_Write : list Byte.byte → Z * option error;
}.

(** [FileWriter{writer, termination}]; [marshal] is [json.Marshal]. *)
Definition FileWriter (marshal : gmap string any → list Byte.byte * option error)
    (writer : io_Writer) (termination : option (list Byte.byte)) : ItemWriter :=
  {| Write := λ item,
       match marshal item with
       | (_, Some err) => Some err
       | (b, None) =>
           let b := match termination with
                    | Some t => b ++ t
                    | None => b
                    end in
           match io_Write writer b with
           | (_, Some err) => Some err
           | (_, None) => None
           end
       end |}.

Definition FileWriterFactory (marshal : gmap string any → list Byte.byte * option error)
    (w : io_Writer) (termination : option (list Byte.byte)) : unit → ItemWriter :=
  λ _, FileWriter marshal w termination.

(** ** The writer pool and the caller *)

(** [WorkerStatus]; instants and durations are in nanoseconds, the formatting
    of the two time stamps is left out. *)
Record WorkerStatus := {
  WorkerNum : Z;
  ItemCount : Z;
  ByteCount : Z;
  StartTime : Z;
  EndTime : Z;
  Duration : Z;
  ErrorCount : Z;
  Status : string;
}.

(** One goroutine of the pool: its writer, its status variable, and whether
    it is still in its receive loop. *)
Record worker := {
  writer : ItemWriter;
  status : WorkerStatus;
  running : bool;
}.

(** The worker's state when its goroutine starts. *)
Definition start_worker (f : unit → ItemWriter) (startTime : nat → Z) (c : nat) : worker :=
  {| writer := f tt;
     status := {| WorkerNum := Z.of_nat c; ItemCount := 0; ByteCount := 0;
                  StartTime := startTime c; EndTime := 0; Duration := 0;
                  ErrorCount := 0; Status := "starting" |};
     running := true |}.

(** [NewWriterPool]: [size] goroutines, numbered from 0; none when [size] is
    not positive.  [startTime c] is the clock when goroutine [c] starts. *)
Definition NewWriterPool (f : unit → ItemWriter) (size : Z) (startTime : nat → Z) : list worker :=
  start_worker f startTime <$> seq 0 (Z.to_nat size).

(** The body of the worker's [for i := range wp.chItem] loop; [sprintf_len i]
    is [len(fmt.Sprintf("%s", i))]. *)
Definition receive (sprintf_len : gmap string any → Z) (i : gmap string any) (w : worker) : worker :=
  let st := status w in
  let st1 := {| WorkerNum := WorkerNum st;
                ItemCount := wrap_int (ItemCount st + 1);
                ByteCount := wrap_int (ByteCount st + sprintf_len i);
                StartTime := StartTime st; EndTime := EndTime st; Duration := Duration st;
                ErrorCount := ErrorCount st; Status := Status st |} in
  let st2 :=
    match Write (writer w) i with
    | Some _ =>
        {| WorkerNum := WorkerNum st1; ItemCount := ItemCount st1; ByteCount := ByteCount st1;
           StartTime := StartTime st1; EndTime := EndTime st1; Duration := Duration st1;
           ErrorCount := wrap_int (ErrorCount st1 + 1); Status := Status st1 |}
    | None => st1
    end in
  {| writer := writer w; status := st2; running := true |}.

(** [t.Sub(u)]: the difference of two instants, saturated to the range of a
    [time.Duration]. *)
Definition time_Sub (t u : Z) : Z :=
  Z.max (- 2 ^ 63) (Z.min (2 ^ 63 - 1) (t - u)).

(** What the worker does once its loop has ended: the final status. *)
Definition final_status (endTime : Z) (st : WorkerStatus) : WorkerStatus :=
  {| WorkerNum := WorkerNum st; ItemCount := ItemCount st; ByteCount := ByteCount st;
     StartTime := StartTime st; EndTime := endTime;
     Duration := time_Sub endTime (StartTime st);
     ErrorCount := ErrorCount st; Status := "ended normally" |}.

(** The caller of [DecodeAndSplitItems]: in its select loop, in its status
    loop with the loop variable and the two sums, or past it. *)
Inductive caller_state :=
  | Selecting
  | Draining (i itemCount itemBytes : Z)
  | Finished (itemCount itemBytes : Z).

(** The whole program while it runs.  [prod] is what the producer goroutine
    still has to do and [prod_panic] whether it panics after that;
    [chStatus] is the buffer of the status channel; [received] records the
    statuses the caller has taken from it. *)
Record Sys := {
  poolSize : Z;
  prod : list event;
  prod_panic : bool;
  cErrors_closed : bool;
  cItems_closed : bool;
  workers : list worker;
  chStatus : list WorkerStatus;
  caller : caller_state;
  received : list WorkerStatus;
  crashed : bool;
}.

(** Capacity of [chStatus]: [make(chan WorkerStatus, 8)]. *)
Definition chStatus_cap : nat := 8.

(** The moves of the program.  Both channels of the producer are unbuffered,
    so a send is one move together with its receive. *)
Inductive action :=
  | ProducerPrint
  | Deliver (w : nat)
  | ReportError
  | ProducerClose
  | ProducerCrash
  | SeeErrorsClosed
  | WorkerEnd (w : nat) (endTime : Z)
  | Collect
  | CallerDone.

Definition set_prod (s : Sys) (p : list event) : Sys :=
  {| poolSize := poolSize s; prod := p; prod_panic := prod_panic s;
     cErrors_closed := cErrors_closed s; cItems_closed := cItems_closed s;
     workers := workers s; chStatus := chStatus s; caller := caller s;
     received := received s; crashed := crashed s |}.

Definition set_workers (s : Sys) (ws : list worker) : Sys :=
  {| poolSize := poolSize s; prod := prod s; prod_panic := prod_panic s;
     cErrors_closed := cErrors_closed s; cItems_closed := cItems_closed s;
     workers := ws; chStatus := chStatus s; caller := caller s;
     received := received s; crashed := crashed s |}.

Definition set_caller (s : Sys) (c : caller_state) : Sys :=
  {| poolSize := poolSize s; prod := prod s; prod_panic := prod_panic s;
     cErrors_closed := cErrors_closed s; cItems_closed := cItems_closed s;
     workers := workers s; chStatus := chStatus s; caller := c;
     received := received s; crashed := crashed s |}.

Definition set_chStatus (s : Sys) (b : list WorkerStatus) (rcv : list WorkerStatus) : Sys :=
  {| poolSize := poolSize s; prod := prod s; prod_panic := prod_panic s;
     cErrors_closed := cErrors_closed s; cItems_closed := cItems_closed s;
     workers := workers s; chStatus := b; caller := caller s;
     received := rcv; crashed := crashed s |}.

Definition set_closed (s : Sys) (e i : bool) : Sys :=
  {| poolSize := poolSize s; prod := prod s; prod_panic := prod_panic s;
     cErrors_closed := e; cItems_closed := i;
     workers := workers s; chStatus := chStatus s; caller := caller s;
     received := received s; crashed := crashed s |}.

Definition set_crashed (s : Sys) : Sys :=
  {| poolSize := poolSize s; prod := prod s; prod_panic := prod_panic s;
     cErrors_closed := cErrors_closed s; cItems_closed := cItems_closed s;
     workers := workers s; chStatus := chStatus s; caller := caller s;
     received := received s; crashed := true |}.

(** One move, when it is enabled. *)
Definition do_action (sprintf_len : gmap string any → Z) (a : action) (s : Sys) : option Sys :=
  if crashed s then None else
  match a with
  | ProducerPrint =>
      match prod s with
      | Print _ :: p => Some (set_prod s p)
      | _ => None
      end
  | Deliver n =>
      match prod s, workers s !! n with
      | SendItem i :: p, Some w =>
          if running w
          then Some (set_workers (set_prod s p) (<[n := receive sprintf_len i w]> (workers s)))
          else None
      | _, _ => None
      end
  | ReportError =>
      match prod s, caller s with
      | SendError _ :: p, Selecting => Some (set_caller (set_prod s p) (Draining 0 0 0))
      | _, _ => None
      end
  | ProducerClose =>
      match prod s with
      | CloseErrors :: p => Some (set_closed (set_prod s p) true (cItems_closed s))
      | CloseItems :: p => Some (set_closed (set_prod s p) (cErrors_closed s) true)
      | _ => None
      end
  | ProducerCrash =>
      match prod s with
      | [] => if prod_panic s then Some (set_crashed s) else None
      | _ => None
      end
  | SeeErrorsClosed =>
      match caller s with
      | Selecting => if cErrors_closed s then Some (set_caller s (Draining 0 0 0)) else None
      | _ => None
      end
  | WorkerEnd n endTime =>
      match workers s !! n with
      | Some w =>
          if running w && cItems_closed s && bool_decide (length (chStatus s) < chStatus_cap)
          then
            let st := final_status endTime (status w) in
            Some (set_chStatus
                    (set_workers s (<[n := {| writer := writer w; status := st;
                                             running := false |}]> (workers s)))
                    (chStatus s ++ [st]) (received s))
          else None
      | None => None
      end
  | Collect =>
      match caller s, chStatus s with
      | Draining i itemCount itemBytes, st :: b =>
          if (i <? poolSize s)%Z
          then Some (set_caller (set_chStatus s b (received s ++ [st]))
                       (Draining (wrap_int (i + 1))
                                 (wrap_int (itemCount + ItemCount st))
                                 (wrap_int (itemBytes + ByteCount st))))
          else None
      | _, _ => None
      end
  | CallerDone =>
      match caller s with
      | Draining i itemCount itemBytes =>
          if (i <? poolSize s)%Z then None else Some (set_caller s (Finished itemCount itemBytes))
      | _ => None
      end
  end.

(** The program can move from [s] to [s']. *)
Definition step (sprintf_len : gmap string any → Z) (s s' : Sys) : Prop :=
  ∃ a, do_action sprintf_len a s = Some s'.

(** [DecodeAndSplitItems(ctx, r, writerFactory, poolSize, spec)] followed by
    the caller's loops: the program just after the pool and the producer
    goroutine have been started. *)
Definition DecodeAndSplitItems (r : list token) (writerFactory : unit → ItemWriter)
    (poolSize : Z) (spec : ItemTransformSpec) (now : string) (startTime : nat → Z) : Sys :=
  let p := producer spec now r in
  {| poolSize := poolSize;
     prod := trace p;
     prod_panic := match ending p with Panic _ => true | _ => false end;
     cErrors_closed := false;
     cItems_closed := false;
     workers := NewWriterPool writerFactory poolSize startTime;
     chStatus := [];
     caller := Selecting;
     received := [];
     crashed := false |}.

(** A schedule: the moves taken one after the other. *)
Fixpoint exec (sprintf_len : gmap string any → Z) (acts : list action) (s : Sys) : option Sys :=
  match acts with
  | [] => Some s
  | a :: acts' =>
      match do_action sprintf_len a s with
      | Some s' => exec sprintf_len acts' s'
      | None => None
      end
  end.


(** * Vocabulary of the statements *)

(** ** The decoder at work *)

(** [Decode] never starts in key position. *)
Definition expects_value (stk : list frame) : Prop :=
  match stk with
  | InMapKey _ :: _ => False
  | _ => True
  end.

(** What [decode_run] goes on with once a value is complete. *)
Definition resume (stk : list frame) (v : any) (rest : list token) : option (any * list token) :=
  match plug stk v with
  | inl s' => decode_run s' rest
  | inr v' => Some (v', rest)
  end.

(** ** Well-formed inputs

    The documents the program is meant for: an object whose fields [pre]
    come first, then the array field with object elements [items], then
    anything. *)

Definition doc_tokens (spec : ItemTransformSpec) (pre : jmembers) (items : jlist)
    (rest : list token) : list token :=
  TDelim LBrace :: tokens_of_members pre ++
  TString (ItemsField spec) :: TDelim LBracket :: tokens_of_list items ++
  TDelim RBracket :: rest.

(** Every field before the array is either captured and a string, or not
    captured and of a nesting depth that [skip]'s counter can hold. *)
Fixpoint fields_ok (spec : ItemTransformSpec) (pre : jmembers) : Prop :=
  match pre with
  | MNil => True
  | MCons k v pre' =>
      k ≠ ItemsField spec ∧
      match Fields spec !! k with
      | Some _ => ∃ s, v = JString s
      | None => (depth v < 2 ^ 63)%Z
      end ∧
      fields_ok spec pre'
  end.

(** Every element of the array is an object that [Decode] accepts: it is
    nested no deeper than the decoder's limit. *)
Fixpoint all_objects (items : jlist) : Prop :=
  match items with
  | JNil => True
  | JCons (JObject ms) items' =>
      (depth (JObject ms) ≤ maxNestingDepth)%Z ∧ all_objects items'
  | JCons _ _ => False
  end.

Fixpoint jlength (l : jlist) : nat :=
  match l with
  | JNil => O
  | JCons _ l' => S (jlength l')
  end.

Fixpoint mlength (ms : jmembers) : nat :=
  match ms with
  | MNil => O
  | MCons _ _ ms' => S (mlength ms')
  end.

(** The elements of the array as [Decode] stores them. *)
Fixpoint decoded (items : jlist) : list (gmap string any) :=
  match items with
  | JNil => []
  | JCons j items' =>
      match to_any j with
      | AMap m => m :: decoded items'
      | _ => decoded items'
      end
  end.

(** The destination name of a captured field. *)
Definition dest_name (f tfv : string) : string :=
  if decide (tfv = "") then f else tfv.

(** The captured fields of [pre] under their destination names, a later
    field overwriting an earlier one of the same destination; [None] as long
    as no captured field was seen. *)
Fixpoint captured (spec : ItemTransformSpec) (pre : jmembers)
    (acc : option (gmap string string)) : option (gmap string string) :=
  match pre with
  | MNil => acc
  | MCons k (JString s) pre' =>
      match Fields spec !! k with
      | Some tfv => captured spec pre' (Some (<[dest_name k tfv := s]> (default ∅ acc)))
      | None => captured spec pre' acc
      end
  | MCons _ _ pre' => captured spec pre' acc
  end.

(** The heap of a run in which the captured fields so far are [snap]: the
    metadata map at location 0 and, once a field was captured, the nested
    map at location 1. *)
Definition heap_of (now : string) (snap : option (gmap string string)) : heap :=
  match snap with
  | None => {[ 0%nat := MapAny (initial_metadata now) ]}
  | Some m =>
      <[ 1%nat := MapString m ]>
        {[ 0%nat := MapAny (<[snapshotKey := AMapRef 1]> (initial_metadata now)) ]}
  end.

(** What the producer prints while it passes the fields [pre]. *)
Fixpoint field_prints (spec : ItemTransformSpec) (pre : jmembers) : list event :=
  match pre with
  | MNil => []
  | MCons k _ pre' =>
      match Fields spec !! k with
      | Some _ => field_prints spec pre'
      | None => Print "skipping field %q" :: field_prints spec pre'
      end
  end.

(** Events that are not a [close]. *)
Definition is_body (e : event) : Prop :=
  match e with
  | CloseErrors | CloseItems => False
  | _ => True
  end.

(** ** Invariants

    What holds of [scan_loop]'s result for any input: the events are not
    closes, at most one error is sent, the heap keeps its form, every item
    sent was enriched from the final metadata map, and the budget suffices. *)
Definition scan_post (now : string) (fuel : nat) (d : list token)
    (r : list event * heap * completion unit) : Prop :=
  let '(evs, h', c) := r in
  Forall is_body evs ∧
  (length (errors_of evs) ≤ 1)%nat ∧
  (∃ snap', h' = heap_of now snap') ∧
  (∀ v, v ∈ items_of evs → ∃ m, v = enrich h' 0 m) ∧
  ((length d < fuel)%nat → c ≠ Exhausted).


(** ** Captured fields

    [pre] has a field named [f] with value [v]. *)
Fixpoint has_field (f : string) (v : json) (pre : jmembers) : Prop :=
  match pre with
  | MNil => False
  | MCons k x pre' => (k = f ∧ x = v) ∨ has_field f v pre'
  end.

(** The destination names of the captured fields of [pre], in order. *)
Fixpoint destinations (spec : ItemTransformSpec) (pre : jmembers) : list string :=
  match pre with
  | MNil => []
  | MCons k _ pre' =>
      match Fields spec !! k with
      | Some tfv => dest_name k tfv :: destinations spec pre'
      | None => destinations spec pre'
      end
  end.



(** ** Sample inputs

    The [ItemTransformSpec] built by [main]. *)
Definition main_spec : ItemTransformSpec :=
  {| Fields := <["configSnapshotId" := ""]> (<["fileVersion" := ""]> ∅);
     ItemsField := "configurationItems" |}.

(** A small snapshot: two captured fields, then two configuration items. *)
Definition sample_pre : jmembers :=
  MCons "fileVersion" (JString "1.0") (MCons "configSnapshotId" (JString "abc") MNil).

Definition sample_items : jlist :=
  JCons (JObject (MCons "resourceId" (JString "r1") MNil))
    (JCons (JObject (MCons "resourceId" (JString "r2") MNil)) JNil).

Definition sample_doc : json :=
  JObject (MCons "fileVersion" (JString "1.0")
          (MCons "configSnapshotId" (JString "abc")
          (MCons "configurationItems" (JArray sample_items) MNil))).

Definition sample_run : run := producer main_spec "2022-08-17T04:22:43Z" (tokens_of sample_doc).


(** A snapshot whose second configuration item is the number 5. *)
Definition bad_element_doc : json :=
  JObject (MCons "configurationItems"
             (JArray (JCons (JObject (MCons "resourceId" (JString "r1") MNil))
                     (JCons (JNumber "5")
                     (JCons (JObject (MCons "resourceId" (JString "r2") MNil)) JNil))))
             MNil).



(** ** Measures and invariants of the running program

    The sum the caller computes in [itemCount]. *)
Definition sum_items (l : list WorkerStatus) : Z :=
  foldr (λ st acc, (ItemCount st + acc)%Z) 0%Z l.

(** The statuses of the workers that have left their loop. *)
Definition ended (ws : list worker) : list WorkerStatus :=
  omap (λ w, if running w then None else Some (status w)) ws.

(** The number of workers still in their loop. *)
Definition live (ws : list worker) : nat :=
  sum_list_with (λ w, if running w then 1%nat else 0%nat) ws.




(** What the producer still has to do, given which of its channels it has
    closed: the rest of its body with at most one error to send and then the
    two closes, or the second close, or nothing. *)
Definition prod_shape (p : list event) (errors_closed items_closed : bool) : Prop :=
  match errors_closed, items_closed with
  | false, false =>
      ∃ body, p = body ++ [CloseErrors; CloseItems] ∧ Forall is_body body ∧
              (length (errors_of body) ≤ 1)%nat
  | true, false => p = [CloseItems]
  | true, true => p = []
  | false, true => False
  end.

(** The invariant of the program that its control flow rests on. *)
Record ctl (s : Sys) : Prop := {
  ctl_int : (poolSize s < 2 ^ 63)%Z;
  ctl_prod : prod_shape (prod s) (cErrors_closed s) (cItems_closed s);
  ctl_len : length (workers s) = Z.to_nat (poolSize s);
  ctl_num : ∀ i w, workers s !! i = Some w → WorkerNum (status w) = Z.of_nat i;
  ctl_open : cItems_closed s = false → Forall (λ w, running w = true) (workers s);
  ctl_status : received s ++ chStatus s ≡ₚ ended (workers s);
  ctl_caller :
    match caller s with
    | Selecting => received s = []
    | Draining i _ _ => i = Z.of_nat (length (received s)) ∧ errors_of (prod s) = []
    | Finished _ _ =>
        (poolSize s ≤ Z.of_nat (length (received s)))%Z ∧ errors_of (prod s) = []
    end;
}.


(** The invariant that the item counts rest on: no counter overflows, and
    every one of the [M] items of the run is either counted by a worker or
    still to be sent. *)
Record cnt (M : nat) (s : Sys) : Prop := {
  cnt_M : (Z.of_nat M < 2 ^ 63)%Z;
  cnt_nonneg : Forall (λ st, (0 ≤ ItemCount st)%Z) (status <$> workers s);
  cnt_total :
    (sum_items (status <$> workers s) + Z.of_nat (length (items_of (prod s)))
     = Z.of_nat M)%Z;
  cnt_caller :
    match caller s with
    | Selecting => True
    | Draining _ itemCount _ | Finished itemCount _ => itemCount = sum_items (received s)
    end;
}.


(** ** Sample runs

    An [io.Writer] that fails on every write. *)
Definition failing_writer : io_Writer :=
  {| io_Write := λ _, (0%Z, Some (WriterError "write failed")) |}.

(** The sample snapshot run through a pool of the given size. *)
Definition sample_program (writerFactory : unit → ItemWriter) (poolSize : Z) : Sys :=
  DecodeAndSplitItems (tokens_of sample_doc) writerFactory poolSize main_spec
                      "2022-08-17T04:22:43Z" (λ _, 0%Z).

(** A complete schedule of the sample program with one worker. *)
Definition schedule_one : list action :=
  [ProducerPrint; Deliver 0; Deliver 0; ProducerPrint; ProducerClose; ProducerClose;
   SeeErrorsClosed; WorkerEnd 0 177; Collect; CallerDone].

(** A complete schedule with two workers, one item each. *)
Definition schedule_two : list action :=
  [ProducerPrint; Deliver 1; Deliver 0; ProducerPrint; ProducerClose; SeeErrorsClosed;
   ProducerClose; WorkerEnd 1 217; WorkerEnd 0 218; Collect; Collect; CallerDone].





(** The nested map that [metadata["config_snapshot"]] refers to; empty when
    there is none. *)
Definition snapshot (h : heap) (metadata : loc) : gmap string string :=
  match map_any h metadata !! snapshotKey with
  | Some (AMapRef l) =>
      match h !! l with
      | Some (MapString sm) => sm
      | _ => ∅
      end
  | _ => ∅
  end.

(** A metadata map as [addMetadata] leaves it: a [map[string]any] whose
    [config_snapshot] entry, if it has one, refers to a [map[string]string]. *)
Definition metadata_ok (h : heap) (metadata : loc) : Prop :=
  (∃ m, h !! metadata = Some (MapAny m)) ∧
  match map_any h metadata !! snapshotKey with
  | None => True
  | Some (AMapRef l) => l ≠ metadata ∧ ∃ sm, h !! l = Some (MapString sm)
  | Some _ => False
  end.





(** The sum of the [ByteCount]s of a list of statuses, without wrap-around. *)
Definition sum_bytes (l : list WorkerStatus) : Z :=
  foldr (λ st acc, (ByteCount st + acc)%Z) 0%Z l.

(** The sum of [len(fmt.Sprintf("%s", i))] over a list of items, without
    wrap-around. *)
Definition bytes_of (sprintf_len : gmap string any → Z) (items : list (gmap string any)) : Z :=
  foldr (λ i acc, (sprintf_len i + acc)%Z) 0%Z items.

(** The invariant of the byte counts: in 64-bit arithmetic, what the workers
    have counted and what is still to be sent add up to the total of the
    run, and the caller's sum is that of the statuses it has received. *)
Record byt (sprintf_len : gmap string any → Z) (total : Z) (s : Sys) : Prop := {
  byt_total :
    wrap_int (sum_bytes (status <$> workers s) + bytes_of sprintf_len (items_of (prod s)))
    = wrap_int total;
  byt_caller :
    match caller s with
    | Selecting => True
    | Draining _ _ itemBytes | Finished _ itemBytes =>
        itemBytes = wrap_int (sum_bytes (received s))
    end;
}.

(** * The history-file maker

    The second tool of the repository writes a bigger history file to
    standard output: the embedded beginning of a snapshot document, a number
    of copies of an embedded block of items separated by commas, and the
    closing brackets.  The two embedded files are the parameters [part1]
    and [items] of [main]; [ok k] tells whether the [k]-th write to standard
    output succeeds (a write that fails is taken to write nothing). *)
Module mk_history.

Definition ending : string := "]}".

(** [itemCount(items)]; the byte compared with is ['{']. *)
Definition itemCount (items : list Byte.byte) : Z :=
  fold_left (λ numItems i, if Byte.eqb i Byte.x7b then wrap_int (numItems + 1) else numItems)
            items 0%Z.

(** Standard output: the bytes written so far and the number of writes
    made. *)
Record stdout := {
  written : list Byte.byte;
  calls : nat;
}.

(** One write of [b] to standard output: the new state, the number of bytes
    written and the error. *)
Definition dest_Write (ok : nat → bool) (b : list Byte.byte) (d : stdout)
    : stdout * Z * option error :=
  if ok (calls d)
  then ({| written := written d ++ b; calls := S (calls d) |}, Z.of_nat (length b), None)
  else ({| written := written d; calls := S (calls d) |}, 0%Z,
        Some (WriterError "write failed")).

(** How [main] ends when it does not panic: it returns after the report on
    standard error (chunks, items, bytes), or it leaves through
    [os.Exit(code)] after a message. *)
Inductive status :=
  | Reported (chunks items bytes : Z)
  | Exited (code : Z) (format : string).

(** The number of item chunks to write (lines 62 to 66 of [main]); [None]
    is the run-time panic of an integer division by zero. *)
Definition item_chunks (requestedItemCount itemsSize : Z) : option Z :=
  if (0 <? requestedItemCount)%Z
  then if (itemsSize =? 0)%Z then None
       else Some (wrap_int (requestedItemCount ÷ itemsSize + 1))
  else Some 0%Z.

(** The loop [for c := 0; c < itemChunks; c++] of [main], from the value [c]
    of its counter on: the state of standard output and [bytesWritten] when
    the loop ends, or the message with which the program exits. *)
Fixpoint write_blocks (fuel : nat) (ok : nat → bool) (items : list Byte.byte)
    (itemChunks c : Z) (d : stdout) (bytesWritten : Z)
    : completion (stdout * Z + stdout * string) :=
  match fuel with
  | O => Exhausted
  | S fuel =>
      if (c <? itemChunks)%Z then
        let '(d, w, err) := dest_Write ok items d in
        match err with
        | Some _ => Normal (inr (d, "error copying items to stdout: %s"))
        | None =>
            let bytesWritten := wrap_int (bytesWritten + w) in
            if (c <? wrap_int (itemChunks - 1))%Z then
              let '(d, w, err) := dest_Write ok [Byte.x2c] d in
              match err with
              | Some _ =>
                  Normal (inr (d, "error writing trailing comma after item block %d"))
              | None =>
                  write_blocks fuel ok items itemChunks (wrap_int (c + 1)) d
                               (wrap_int (bytesWritten + w))
              end
            else write_blocks fuel ok items itemChunks (wrap_int (c + 1)) d bytesWritten
        end
      else Normal (inl (d, bytesWritten))
  end.

(** [main]: what is on standard output when the program ends, and how it
    ends. *)
Definition main (ok : nat → bool) (part1 items : list Byte.byte) (requestedItemCount : Z)
    : completion (list Byte.byte * status) :=
  let itemsSize := itemCount items in
  match item_chunks requestedItemCount itemsSize with
  | None => Panic "integer divide by zero"
  | Some itemChunks =>
      let '(d, w, err) := dest_Write ok part1 {| written := []; calls := 0 |} in
      match err with
      | Some _ => Normal (written d, Exited 1 "error copying part1 to stdout: %s")
      | None =>
          let bytesWritten := wrap_int (0 + w) in
          match write_blocks (S (Z.to_nat itemChunks)) ok items itemChunks 0 d bytesWritten with
          | Exhausted => Exhausted
          | Panic msg => Panic msg
          | Normal (inr (d, msg)) => Normal (written d, Exited 1 msg)
          | Normal (inl (d, bytesWritten)) =>
              let '(d, w, err) := dest_Write ok (String.list_byte_of_string ending) d in
              match err with
              | Some _ => Normal (written d, Exited 1 "error copying ending to stdout: %s")
              | None =>
                  let '(d, _, _) := dest_Write ok [Byte.x0a] d in
                  let bytesWritten := wrap_int (bytesWritten + wrap_int (w + 1)) in
                  Normal (written d,
                          Reported itemChunks (wrap_int (itemChunks * itemsSize)) bytesWritten)
              end
          end
      end
  end.

(** [n] copies of [items] with a comma between two of them. *)
Fixpoint item_blocks (items : list Byte.byte) (n : nat) : list Byte.byte :=
  match n with
  | O => []
  | S n' => items ++ match n' with O => [] | S _ => Byte.x2c :: item_blocks items n' end
  end.

(** The document written when all goes well: the beginning, [n] blocks of
    items, the ending, and the new line of [fmt.Println]. *)
Definition document (part1 items : list Byte.byte) (n : nat) : list Byte.byte :=
  part1 ++ item_blocks items n ++ String.list_byte_of_string ending ++ [Byte.x0a].

End mk_history.



(** What [byteCountSI] hands to [fmt.Sprintf]: [b] for the format ["%d B"],
    or the two numbers whose quotient is printed and the unit prefix, for
    the format ["%.1f %cB"]. *)
Inductive byte_count :=
  | PlainBytes (b : Z)
  | ScaledBytes (b div : Z) (prefix : Ascii.ascii).

(** The loop [for n := b / unit; n >= unit; n /= unit] of [byteCountSI],
    where [unit] is 1000: the values of [div] and [exp] when it ends. *)
Fixpoint byteCountSI_loop (fuel : nat) (n div exp : Z) : completion (Z * Z) :=
  match fuel with
  | O => Exhausted
  | S fuel =>
      if (1000 <=? n)%Z
      then byteCountSI_loop fuel (n ÷ 1000) (wrap_int (div * 1000)) (wrap_int (exp + 1))
      else Normal (div, exp)
  end.

(** [byteCountSI(b)]; the index expression ["kMGTPE"[exp]] panics when [exp]
    is out of range.  Every turn of the loop at least halves [n], which is
    less than [2 ^ 63], so that 64 turns are enough. *)
Definition byteCountSI (b : Z) : completion byte_count :=
  if (b <? 1000)%Z then Normal (PlainBytes b)
  else
    match byteCountSI_loop 64 (b ÷ 1000) 1000 0 with
    | Normal (div, exp) =>
        match (if (exp <? 0)%Z then None else String.get (Z.to_nat exp) "kMGTPE") with
        | Some c => Normal (ScaledBytes b div c)
        | None => Panic "index out of range"
        end
    | Panic msg => Panic msg
    | Exhausted => Exhausted
    end.

(** * Properties *)

(** Case analysis on what enabled a move. *)
Ltac case_enabled Ha :=
  repeat match type of Ha with
  | match ?x with _ => _ end = _ => destruct x eqn:?; try done
  | (if ?x then _ else _) = _ => destruct x eqn:?; try done
  end.

(** ** Integers *)

Lemma wrap_int_small (z : Z) :
  (- 2 ^ 63 ≤ z < 2 ^ 63)%Z → wrap_int z = z.
Proof.
  intros Hz. unfold wrap_int.
  rewrite Z.mod_small by lia. lia.
Qed.

(** ** The decoder *)

Lemma depth_nonneg :
  (∀ j, (0 ≤ depth j)%Z) ∧ (∀ l, (0 ≤ depth_list l)%Z) ∧ (∀ ms, (0 ≤ depth_members ms)%Z).
Proof. apply json_mutind; simpl; intros; lia. Qed.

Lemma decode_run_scalar stk t v rest :
  expects_value stk → scalar_of t = Some v →
  decode_run stk (t :: rest) = resume stk v rest.
Proof.
  intros Hstk Ht. unfold resume.
  destruct t; simplify_eq/=;
    destruct stk as [|[acc|m|m k] stk']; simpl in *; done.
Qed.

Lemma decode_run_open_slice stk rest :
  expects_value stk → can_open stk = true →
  decode_run stk (TDelim LBracket :: rest) = decode_run (InSlice [] :: stk) rest.
Proof. intros H Hc. destruct stk as [|[acc|m|m k] s]; simpl; try done; by rewrite Hc. Qed.

Lemma decode_run_open_map stk rest :
  expects_value stk → can_open stk = true →
  decode_run stk (TDelim LBrace :: rest) = decode_run (InMapKey ∅ :: stk) rest.
Proof. intros H Hc. destruct stk as [|[acc|m|m k] s]; simpl; try done; by rewrite Hc. Qed.

Lemma can_open_depth stk d :
  (0 ≤ d)%Z → (Z.of_nat (length stk) + (1 + d) ≤ maxNestingDepth)%Z → can_open stk = true.
Proof. intros ??. unfold can_open. apply Z.ltb_lt. lia. Qed.

(** Decoding the tokens of a document yields the document's value and leaves
    the rest of the stream, whatever compound the value sits in. *)
Lemma decode_run_tokens :
  (∀ j stk rest, expects_value stk →
     (Z.of_nat (length stk) + depth j ≤ maxNestingDepth)%Z →
     decode_run stk (tokens_of j ++ rest) = resume stk (to_any j) rest) ∧
  (∀ l acc s rest,
     (Z.of_nat (S (length s)) + depth_list l ≤ maxNestingDepth)%Z →
     decode_run (InSlice acc :: s) (tokens_of_list l ++ TDelim RBracket :: rest)
     = resume s (ASlice (to_slice l acc)) rest) ∧
  (∀ ms m s rest,
     (Z.of_nat (S (length s)) + depth_members ms ≤ maxNestingDepth)%Z →
     decode_run (InMapKey m :: s) (tokens_of_members ms ++ TDelim RBrace :: rest)
     = resume s (AMap (to_map ms m)) rest).
Proof.
  destruct depth_nonneg as (Dj & Dl & Dm).
  apply json_mutind.
  - intros stk rest H _. by apply decode_run_scalar.
  - intros b stk rest H _. by apply decode_run_scalar.
  - intros x stk rest H _. by apply decode_run_scalar.
  - intros x stk rest H _. by apply decode_run_scalar.
  - intros l IH stk rest H Hd. cbn [tokens_of to_any depth] in *.
    rewrite <- app_comm_cons, <- app_assoc. cbn [app].
    rewrite decode_run_open_slice by eauto using can_open_depth.
    apply IH. lia.
  - intros ms IH stk rest H Hd. cbn [tokens_of to_any depth] in *.
    rewrite <- app_comm_cons, <- app_assoc. cbn [app].
    rewrite decode_run_open_map by eauto using can_open_depth.
    apply IH. lia.
  - intros acc s rest _. reflexivity.
  - intros j IHj l IHl acc s rest Hd. cbn [tokens_of_list to_slice depth_list] in *.
    rewrite <- app_assoc. rewrite IHj by (try done; cbn [length]; lia).
    unfold resume at 1. cbn [plug]. apply IHl. lia.
  - intros m s rest _. reflexivity.
  - intros k v IHv ms IHms m s rest Hd. cbn [tokens_of_members to_map depth_members] in *.
    rewrite <- app_comm_cons, <- app_assoc.
    change (decode_run (InMapKey m :: s) (TString k :: ?d))
      with (decode_run (InMapValue m k :: s) d).
    rewrite IHv by (try done; cbn [length]; lia).
    unfold resume at 1. cbn [plug]. apply IHms. lia.
Qed.

(** [Decode] of an object element. *)
Lemma Decode_object ms rest :
  (depth (JObject ms) ≤ maxNestingDepth)%Z →
  Decode (tokens_of (JObject ms) ++ rest) = (Some (to_map ms ∅), None, rest).
Proof.
  intros Hd. unfold Decode.
  destruct decode_run_tokens as (H & _ & _).
  rewrite H by done. reflexivity.
Qed.

(** A decoded value consumed at least one token. *)
Lemma decode_run_shorter d : ∀ stk v d',
  decode_run stk d = Some (v, d') → (length d' < length d)%nat.
Proof.
  induction d as [|t d IH]; intros stk v d' H; [done|].
  assert (Hres : ∀ s x, resume s x d = Some (v, d') → (length d' < length (t :: d))%nat).
  { intros s x. unfold resume. destruct (plug s x) as [s'|x'].
    - intros H'%IH. simpl. lia.
    - intros [= -> ->]. simpl. lia. }
  simpl in H. fold (resume) in H.
  destruct stk as [|[acc|m|m k] stk'], t as [[]|b|x|x| |];
    simpl in H; try done;
    try match type of H with (if ?c then _ else _) = _ => destruct c; [|done] end;
    try (apply IH in H; simpl; lia);
    try (eapply Hres; exact H);
    simplify_eq; simpl; lia.
Qed.

Lemma Decode_shorter d v err d' :
  Decode d = (Some v, err, d') → (length d' < length d)%nat.
Proof.
  unfold Decode. destruct (decode_run [] d) as [[x d1]|] eqn:E; [|done].
  apply decode_run_shorter in E.
  destruct x; intros [= <- <- <-]; done.
Qed.

(** ** Skipping a value *)

Lemma skip_loop_step n t d :
  t ≠ TInvalid →
  skip_loop n (t :: d) =
    let n' := match t with
              | TDelim LBracket | TDelim LBrace => wrap_int (n + 1)
              | TDelim RBracket | TDelim RBrace => wrap_int (n - 1)
              | _ => n
              end in
    if (n' =? 0)%Z then (None, d) else skip_loop n' d.
Proof. destruct t; done. Qed.

Lemma skip_loop_tokens :
  (∀ j n rest, (0 ≤ n)%Z → (n + depth j < 2 ^ 63)%Z →
     skip_loop n (tokens_of j ++ rest)
     = if (n =? 0)%Z then (None, rest) else skip_loop n rest) ∧
  (∀ l n rest, (0 < n)%Z → (n + depth_list l < 2 ^ 63)%Z →
     skip_loop n (tokens_of_list l ++ rest) = skip_loop n rest) ∧
  (∀ ms n rest, (0 < n)%Z → (n + depth_members ms < 2 ^ 63)%Z →
     skip_loop n (tokens_of_members ms ++ rest) = skip_loop n rest).
Proof.
  destruct depth_nonneg as (Dj & Dl & Dm).
  assert (Hcompound : ∀ n inner close rest,
    (0 ≤ n)%Z → (n + 1 < 2 ^ 63)%Z →
    skip_loop (n + 1) (inner ++ TDelim close :: rest) = skip_loop (n + 1) (TDelim close :: rest) →
    close = RBracket ∨ close = RBrace →
    skip_loop (n + 1) (inner ++ TDelim close :: rest)
    = if (n =? 0)%Z then (None, rest) else skip_loop n rest).
  { intros n inner close rest Hn Hlt -> Hc.
    rewrite skip_loop_step by done.
    assert (wrap_int (n + 1 - 1) = n) as Hw by (rewrite wrap_int_small; lia).
    destruct Hc as [-> | ->]; cbn zeta; rewrite Hw; done. }
  apply json_mutind.
  - intros n rest Hn _. simpl. done.
  - intros b n rest Hn _. simpl. done.
  - intros x n rest Hn _. simpl. done.
  - intros x n rest Hn _. simpl. done.
  - intros l IH n rest Hn Hd. cbn [tokens_of depth] in *.
    rewrite <- app_comm_cons, <- app_assoc. cbn [app].
    rewrite skip_loop_step by done. cbn zeta.
    specialize (Dl l).
    rewrite wrap_int_small by lia.
    destruct (n + 1 =? 0)%Z eqn:E; [lia|].
    apply Hcompound; [lia | lia | | by left].
    apply IH; lia.
  - intros ms IH n rest Hn Hd. cbn [tokens_of depth] in *.
    rewrite <- app_comm_cons, <- app_assoc. cbn [app].
    rewrite skip_loop_step by done. cbn zeta.
    specialize (Dm ms).
    rewrite wrap_int_small by lia.
    destruct (n + 1 =? 0)%Z eqn:E; [lia|].
    apply Hcompound; [lia | lia | | by right].
    apply IH; lia.
  - done.
  - intros j IHj l IHl n rest Hn Hd. cbn [tokens_of_list depth_list] in *.
    rewrite <- app_assoc. rewrite IHj by lia.
    destruct (n =? 0)%Z eqn:E; [lia|]. apply IHl; lia.
  - done.
  - intros k v IHv ms IHms n rest Hn Hd. cbn [tokens_of_members depth_members] in *.
    rewrite <- app_comm_cons, <- app_assoc.
    rewrite skip_loop_step by done. cbn zeta.
    destruct (n =? 0)%Z eqn:E; [lia|].
    rewrite IHv by lia. rewrite E. apply IHms; lia.
Qed.

Lemma skip_tokens j rest :
  (depth j < 2 ^ 63)%Z → skip (tokens_of j ++ rest) = (None, rest).
Proof.
  intros Hd. unfold skip.
  destruct skip_loop_tokens as (H & _ & _). rewrite H by lia. done.
Qed.

Lemma skip_loop_length d : ∀ n e d',
  skip_loop n d = (e, d') → (length d' ≤ length d)%nat.
Proof.
  induction d as [|t d IH]; intros n e d' H.
  - simpl in H. by simplify_eq.
  - destruct (decide (t = TInvalid)) as [->|Ht].
    + simpl in H. simplify_eq. simpl. lia.
    + rewrite skip_loop_step in H by done. cbn zeta in H.
      match type of H with (if ?c then _ else _) = _ => destruct c end.
      * simplify_eq. simpl. lia.
      * apply IH in H. simpl. lia.
Qed.


(** ** The metadata heap *)

Lemma make_metadata now :
  make ∅ (MapAny (initial_metadata now)) = (0%nat, heap_of now None).
Proof. reflexivity. Qed.

Lemma map_any_heap_of now snap :
  map_any (heap_of now snap) 0
  = match snap with
    | None => initial_metadata now
    | Some _ => <[snapshotKey := AMapRef 1]> (initial_metadata now)
    end.
Proof. destruct snap; reflexivity. Qed.

Lemma addMetadata_string now snap key s :
  addMetadata (heap_of now snap) 0 key (TString s)
  = (heap_of now (Some (<[key := s]> (default ∅ snap))), Normal None).
Proof.
  destruct snap as [m|]; unfold addMetadata.
  - rewrite map_any_heap_of. 
    replace (<[snapshotKey:=AMapRef 1]> (initial_metadata now) !! snapshotKey) with (Some (AMapRef 1)) by reflexivity.
    cbn match. rewrite map_any_heap_of.
    replace (<[snapshotKey:=AMapRef 1]> (initial_metadata now) !! snapshotKey) with (Some (AMapRef 1)) by reflexivity.
    cbn. unfold heap_of. rewrite lookup_insert_eq. rewrite insert_insert_eq. done.
  - vm_compute. reflexivity.
Qed.

Lemma addMetadata_other now snap key val :
  (∀ s, val ≠ TString s) →
  addMetadata (heap_of now snap) 0 key val
  = (heap_of now (Some (default ∅ snap)),
     Normal (Some (Errorf "addMetadata: value %[1]v is not a string type, but a %[1]T"
                          [ArgToken val] None))).
Proof.
  intros Hval.
  assert (Hh : match map_any (heap_of now snap) 0 !! snapshotKey with
    | Some _ => heap_of now snap
    | None =>
        let '(l, h') := make (heap_of now snap) (MapString ∅) in
        <[0%nat := MapAny (<[snapshotKey := AMapRef l]> (map_any h' 0))]> h'
    end = heap_of now (Some (default ∅ snap))).
  { destruct snap as [m|]; reflexivity. }
  unfold addMetadata. rewrite Hh.
  destruct val; try done. by destruct (Hval s).
Qed.

(** ** The producer on well-formed input *)

Lemma decodeItems_loop_objects h metadata rest : ∀ items fuel,
  all_objects items →
  decodeItems_loop (jlength items + S fuel) h metadata
                   (tokens_of_list items ++ TDelim RBracket :: rest)
  = (SendItem ∘ enrich h metadata <$> decoded items, Normal None, TDelim RBracket :: rest).
Proof.
  induction items as [|j items IH]; intros fuel Hobj.
  - reflexivity.
  - destruct j as [| | | | |ms]; try done. destruct Hobj as [Hd Hobj].
    cbn [tokens_of_list jlength Nat.add decodeItems_loop].
    rewrite <- app_assoc.
    replace (More (tokens_of (JObject ms) ++ tokens_of_list items ++ TDelim RBracket :: rest))
      with true by reflexivity.
    rewrite Decode_object by done. cbn match.
    rewrite IH by done. reflexivity.
Qed.

Lemma decodeItems_bracket fuel h metadata d :
  decodeItems fuel h metadata (TDelim LBracket :: d) = decodeItems_loop fuel h metadata d.
Proof. reflexivity. Qed.

Lemma scan_loop_fields spec now rest : ∀ pre fuel snap,
  fields_ok spec pre →
  scan_loop (mlength pre + fuel) spec (heap_of now snap) 0 (tokens_of_members pre ++ rest)
  = let '(evs, h', c) :=
      scan_loop fuel spec (heap_of now (captured spec pre snap)) 0 rest in
    (field_prints spec pre ++ evs, h', c).
Proof.
  induction pre as [|k v pre IH]; intros fuel snap Hok.
  - simpl. by destruct (scan_loop _ _ _ _ _) as [[??]?].
  - destruct Hok as (Hk & Hv & Hok).
    cbn [tokens_of_members mlength Nat.add scan_loop app field_prints captured].
    replace (More (TString k :: (tokens_of v ++ tokens_of_members pre) ++ rest))
      with true by reflexivity.
    cbn [Token]. rewrite decide_False by done.
    rewrite <- app_assoc.
    destruct (Fields spec !! k) as [tfv|] eqn:Hf.
    + destruct Hv as [s ->]. cbn [tokens_of app Token is_delim].
      fold (dest_name k tfv). rewrite addMetadata_string.
      by rewrite IH.
    + rewrite skip_tokens by done.
      rewrite IH by done.
      destruct v; by destruct (scan_loop _ _ _ _ _) as [[evs h'] c].
Qed.

Lemma tokens_length :
  (∀ j, (1 ≤ length (tokens_of j))%nat) ∧
  (∀ l, (jlength l ≤ length (tokens_of_list l))%nat) ∧
  (∀ ms, (mlength ms ≤ length (tokens_of_members ms))%nat).
Proof.
  apply json_mutind; intros; simpl; rewrite ?length_app; simpl; lia.
Qed.

(** The whole run of the producer on a well-formed document. *)
Lemma producer_well_formed spec now pre items rest :
  fields_ok spec pre → all_objects items →
  producer spec now (doc_tokens spec pre items rest)
  = let h := heap_of now (captured spec pre None) in
    {| trace := field_prints spec pre ++
                Print "handling %s array..." ::
                (SendItem ∘ enrich h 0 <$> decoded items) ++
                [Print "decoder goroutine ended normally"; CloseErrors; CloseItems];
       heap_end := h;
       metadata_loc := 0;
       ending := Normal tt |}.
Proof.
  intros Hpre Hitems.
  destruct tokens_length as (_ & Hl & Hm).
  specialize (Hl items). specialize (Hm pre).
  unfold producer. rewrite make_metadata.
  unfold doc_tokens at 1. cbn [expect Token]. rewrite decide_True by done.
  assert (∃ k, S (length (doc_tokens spec pre items rest))
               = (mlength pre + S (jlength items + S k))%nat) as [k ->].
  { unfold doc_tokens. cbn [length]. rewrite !length_app. cbn [length].
    rewrite length_app. cbn [length].
    exists (length (tokens_of_members pre) - mlength pre
            + (length (tokens_of_list items) - jlength items) + length rest + 3)%nat.
    lia. }
  rewrite scan_loop_fields by done.
  cbn [scan_loop More Token]. rewrite decide_True by done.
  rewrite decodeItems_bracket.
  rewrite decodeItems_loop_objects by done.
  rewrite Nat.add_succ_r. cbn [scan_loop More].
  cbn zeta. f_equal.
  rewrite <- !app_assoc. reflexivity.
Qed.

(** ** The producer on any input *)

Lemma items_of_app evs1 evs2 : items_of (evs1 ++ evs2) = items_of evs1 ++ items_of evs2.
Proof. apply omap_app. Qed.

Lemma errors_of_app evs1 evs2 : errors_of (evs1 ++ evs2) = errors_of evs1 ++ errors_of evs2.
Proof. apply omap_app. Qed.

(** [Decode] stores a map only when it reports no error. *)
Lemma Decode_cases d v err d' :
  Decode d = (v, err, d') →
  match v with
  | Some _ => err = None ∧ (length d' < length d)%nat
  | None => (length d' ≤ length d)%nat
  end.
Proof.
  unfold Decode. destruct (decode_run [] d) as [[x d1]|] eqn:E.
  - apply decode_run_shorter in E.
    destruct x; intros [= <- <- <-]; try done; lia.
  - intros [= <- <- <-]. done.
Qed.

Lemma More_cons d : More d = true → ∃ t d', d = t :: d'.
Proof. destruct d; [done|eauto]. Qed.

(** What [decodeItems_loop] can do, whatever the input. *)
Lemma decodeItems_loop_any h metadata : ∀ fuel d evs c d',
  decodeItems_loop fuel h metadata d = (evs, c, d') →
  Forall is_body evs ∧
  (∀ v, v ∈ items_of evs → ∃ m, v = enrich h metadata m) ∧
  (length d' ≤ length d)%nat ∧
  (length (errors_of evs) ≤ 1)%nat ∧
  (∀ x, c = Normal x → x = None ∧ errors_of evs = [] ∧ More d' = false) ∧
  ((length d < fuel)%nat → c ≠ Exhausted).
Proof.
  induction fuel as [|fuel IH]; intros d evs c d' H.
  - simpl in H. simplify_eq. split_and!; try done; try (simpl; lia).
    by intros v Hv%elem_of_nil.
  - simpl in H. destruct (More d) eqn:HM.
    + destruct (Decode d) as [[v err] d1] eqn:HD.
      apply Decode_cases in HD.
      destruct v as [m|].
      * destruct HD as [-> Hlen].
        destruct (decodeItems_loop fuel h metadata d1) as [[evs1 c1] d2] eqn:HL.
        apply IH in HL as (Hb & Hi & Hl & He & Hn & Hf).
        simplify_eq. simpl. split_and!.
        -- constructor; done.
        -- intros v [->|Hv]%elem_of_cons; eauto.
        -- lia.
        -- done.
        -- done.
        -- intros ?. apply Hf. lia.
      * simpl in HD. simplify_eq.
        split_and!; try done; try lia;
          destruct err; simpl; first [lia | by repeat constructor | by intros ? ?%elem_of_nil].
    + simplify_eq. split_and!; try done; try (simpl; lia).
      * by intros v Hv%elem_of_nil.
      * intros x [= <-]. done.
Qed.

Lemma scan_loop_no_more fuel spec h metadata d :
  More d = false →
  scan_loop fuel spec h metadata d
  = match fuel with
    | O => ([], h, Exhausted)
    | S _ => ([Print "decoder goroutine ended normally"], h, Normal tt)
    end.
Proof. intros HM. destruct fuel; simpl; [done|]. by rewrite HM. Qed.

(** [addMetadata] on the heap of a run: it never panics and leaves a heap of
    the same form. *)
Lemma addMetadata_heap_of now snap key val :
  ∃ snap' c, addMetadata (heap_of now snap) 0 key val = (heap_of now snap', Normal c).
Proof.
  destruct val as [c|b|x|s| |];
    try (eexists _, _; apply addMetadata_other; done).
  eexists _, _. apply addMetadata_string.
Qed.

Lemma expect_ok d e d' : expect d e = (None, d') → d = e :: d'.
Proof.
  unfold expect. destruct d as [|t d0]; [done|].
  destruct t; simpl; try done; case_decide; intros; simplify_eq; done.
Qed.

(** What [decodeItems] can do, whatever the input. *)
Lemma decodeItems_any h metadata fuel d evs c d' :
  decodeItems fuel h metadata d = (evs, c, d') →
  Forall is_body evs ∧
  (∀ v, v ∈ items_of evs → ∃ m, v = enrich h metadata m) ∧
  (length d' ≤ length d)%nat ∧
  (length (errors_of evs) ≤ 1)%nat ∧
  (∀ x, c = Normal x → errors_of evs = [] ∧ (x = None → More d' = false)) ∧
  ((length d ≤ fuel)%nat → c ≠ Exhausted).
Proof.
  unfold decodeItems.
  destruct (expect d (TDelim LBracket)) as [[err|] d1] eqn:HE.
  - intros ?; simplify_eq. split_and!; try done; try (simpl; lia).
    + by intros v Hv%elem_of_nil.
    + unfold expect in HE. destruct d as [|t d0]; simpl in *; [by simplify_eq|].
      destruct t; simpl in *; try case_decide; simplify_eq; lia.
    + intros x [= <-]. done.
  - apply expect_ok in HE as ->.
    intros (Hb & Hi & Hl & He & Hn & Hf)%decodeItems_loop_any.
    split_and!; try done;
      first [ simpl; lia
            | by intros x ->; destruct (Hn _ eq_refl) as (? & ? & ?)
            | simpl; intros ?; apply Hf; lia ].
Qed.

Lemma scan_post_leaf now fuel d evs snap c :
  Forall is_body evs → (length (errors_of evs) ≤ 1)%nat → items_of evs = [] →
  c ≠ Exhausted →
  scan_post now fuel d (evs, heap_of now snap, c).
Proof.
  intros Hb He Hi Hc. split_and!; eauto.
  rewrite Hi. by intros v Hv%elem_of_nil.
Qed.

Lemma scan_post_prefix now fuel d d1 pre evs h c :
  scan_post now fuel d1 (evs, h, c) →
  Forall is_body pre → errors_of pre = [] → items_of pre = [] →
  (length d1 < length d)%nat →
  scan_post now (S fuel) d (pre ++ evs, h, c).
Proof.
  intros (Hb & He & Hh & Hi & Hf) Hpb Hpe Hpi Hlen. split_and!; try done.
  - by apply Forall_app.
  - by rewrite errors_of_app, Hpe.
  - by rewrite items_of_app, Hpi.
  - intros ?. apply Hf. lia.
Qed.

Lemma scan_loop_any spec now : ∀ fuel snap d,
  scan_post now fuel d (scan_loop fuel spec (heap_of now snap) 0 d).
Proof.
  induction fuel as [|fuel IH]; intros snap d.
  { simpl. split_and!; eauto; try (simpl; lia). by intros v Hv%elem_of_nil. }
  cbn [scan_loop]. destruct (More d) eqn:HM.
  2:{ apply scan_post_leaf; try done; repeat constructor. }
  apply More_cons in HM as HM'. destruct HM' as (t & d1 & ->).
  assert (Hrec : ∀ snap1 d2 msg, (length d2 ≤ length d1)%nat →
    scan_post now (S fuel) (t :: d1)
      (let '(evs', h', c') := scan_loop fuel spec (heap_of now snap1) 0 d2 in
       (Print msg :: evs', h', c'))).
  { intros snap1 d2 msg Hlen. specialize (IH snap1 d2).
    destruct (scan_loop fuel spec _ 0 d2) as [[evs1 h1] c1].
    apply (scan_post_prefix _ _ _ d2 [Print msg]); try done; [repeat constructor | simpl; lia]. }
  destruct t as [c|b|x|f| |]; cbn [Token];
    try (apply Hrec; done);
    try (apply scan_post_leaf; try done; repeat constructor).
  case_decide as Hf.
  - (* the items array *)
    destruct (decodeItems fuel (heap_of now snap) 0 d1) as [[evs0 c0] d2] eqn:HD.
    apply decodeItems_any in HD as (Hb & Hi & Hl & He & Hn & Hfuel).
    destruct c0 as [[err|]|msg|].
    + destruct (Hn _ eq_refl) as [He0 _].
      split_and!; eauto.
      * apply Forall_app. split; repeat constructor; done.
      * rewrite errors_of_app. cbn [errors_of omap]. simpl. 
        change (omap _ evs0) with (errors_of evs0). rewrite He0. simpl. lia.
      * rewrite items_of_app. simpl. change (omap _ evs0) with (items_of evs0).
        rewrite app_nil_r. done.
    + destruct (Hn _ eq_refl) as [He0 HM2]. specialize (HM2 eq_refl).
      rewrite scan_loop_no_more by done.
      destruct fuel as [|fuel'].
      * split_and!; eauto.
        -- rewrite app_nil_r. repeat constructor; done.
        -- simpl. change (omap _ evs0) with (errors_of evs0).
           rewrite app_nil_r, He0. simpl; lia.
        -- simpl. rewrite app_nil_r. done.
        -- simpl. lia.
      * split_and!; eauto.
        -- apply Forall_app. split; repeat constructor; done.
        -- rewrite errors_of_app. simpl.
           change (omap _ evs0) with (errors_of evs0). rewrite He0. simpl; lia.
        -- rewrite items_of_app. simpl. rewrite app_nil_r. done.
    + split_and!; eauto.
      repeat constructor; done.
    + split_and!; eauto.
      * repeat constructor; done.
      * simpl. intros ?. exfalso. apply Hfuel; [lia|done].
  - destruct (Fields spec !! f) as [tfv|].
    + (* a captured field *)
      destruct d1 as [|v d2]; cbn [Token].
      { apply scan_post_leaf; try done; repeat constructor. }
      destruct (decide (v = TInvalid)) as [->|Hv].
      { apply scan_post_leaf; try done; repeat constructor. }
      replace (match v with TInvalid => (inr SyntaxError, d2) | _ => (inl v, d2) end)
        with (@inl token error v, d2) by (by destruct v).
      destruct (is_delim v).
      { apply scan_post_leaf; try done; repeat constructor. }
      destruct (addMetadata_heap_of now snap (if decide (tfv = "") then f else tfv) v)
        as (snap' & c & ->).
      destruct c as [err|].
      * apply scan_post_leaf; try done; repeat constructor.
      * specialize (IH snap' d2). destruct (scan_loop fuel spec _ 0 d2) as [[evs1 h1] c1].
        apply (scan_post_prefix _ _ _ d2 [] evs1); try done. simpl. lia.
    + (* a field to skip *)
      destruct (skip d1) as [[err|] d2] eqn:HS.
      * apply scan_post_leaf; try done; repeat constructor.
      * apply skip_loop_length in HS. by apply Hrec.
Qed.

(** ** The metadata attached to the items *)

Lemma enrich_union h metadata v :
  enrich h metadata v = map_any h metadata ∪ <["metadata" := AMapRef metadata]> v.
Proof.
  unfold enrich.
  apply (map_fold_weak_ind (λ r m, r = m ∪ <["metadata" := AMapRef metadata]> v)).
  - by rewrite (left_id_L ∅ (∪)).
  - intros k x m r Hk ->. by rewrite insert_union_l.
Qed.

Lemma enrich_lookup h metadata v k :
  enrich h metadata v !! k
  = match map_any h metadata !! k with
    | Some x => Some x
    | None => <["metadata" := AMapRef metadata]> v !! k
    end.
Proof.
  rewrite enrich_union, lookup_union.
  destruct (map_any h metadata !! k); [by rewrite union_Some_l|by rewrite (left_id_L None _)].
Qed.

(** The keys of the metadata map of a run. *)
Lemma metadata_keys now snap k :
  is_Some (map_any (heap_of now snap) 0 !! k) →
  k = "event_type" ∨ k = "event_source" ∨ k = "ingest_time" ∨ (k = snapshotKey ∧ is_Some snap).
Proof.
  rewrite map_any_heap_of. unfold initial_metadata.
  destruct snap as [m|];
    rewrite ?lookup_insert; repeat case_decide; subst; eauto 6.
  all: rewrite lookup_empty; by intros [??].
Qed.

Lemma enrich_metadata now snap v :
  enrich (heap_of now snap) 0 v !! "metadata" = Some (AMapRef 0).
Proof.
  rewrite enrich_lookup.
  destruct (map_any (heap_of now snap) 0 !! "metadata") eqn:E.
  - destruct (metadata_keys now snap "metadata") as [?|[?|[?|[? _]]]]; by eauto.
  - by rewrite lookup_insert_eq.
Qed.

(** The nested map holds what [captured] says. *)
Lemma captured_lookup spec : ∀ pre acc,
  fields_ok spec pre →
  NoDup (destinations spec pre) →
  (∀ k, k ∈ destinations spec pre → default ∅ acc !! k = None) →
  match captured spec pre acc with
  | None => acc = None ∧ destinations spec pre = []
  | Some snap =>
      ∀ k s, snap !! k = Some s ↔
        default ∅ acc !! k = Some s ∨
        ∃ f tfv, has_field f (JString s) pre ∧ Fields spec !! f = Some tfv ∧ dest_name f tfv = k
  end.
Proof.
  induction pre as [|k0 v pre IH]; intros acc Hok Hnd Hfresh.
  - simpl. destruct acc as [m|]; [|done].
    intros k s. simpl. split; [by left|]. by intros [?|(?&?&[]&_)].
  - destruct Hok as (_ & Hv & Hok). simpl in Hnd, Hfresh. cbn [captured].
    destruct (Fields spec !! k0) as [tfv|] eqn:Hf.
    + destruct Hv as [s0 ->].
      apply NoDup_cons in Hnd as [Hnotin Hnd].
      assert (Hfresh' : ∀ k, k ∈ destinations spec pre →
                default ∅ (Some (<[dest_name k0 tfv := s0]> (default ∅ acc))) !! k = None).
      { intros k Hk. simpl.
        rewrite lookup_insert_ne by (intros <-; done). apply Hfresh. by right. }
      specialize (IH (Some (<[dest_name k0 tfv := s0]> (default ∅ acc))) Hok Hnd Hfresh').
      destruct (captured spec pre _) as [snap|]; [|by destruct IH].
      intros k s. rewrite IH.
      simpl. split.
      * intros [Hl|(f & tfv' & Hin & Hf' & Hd)].
        -- destruct (decide (dest_name k0 tfv = k)) as [<-|Hne].
           ++ rewrite lookup_insert_eq in Hl. simplify_eq. right. eauto 8.
           ++ rewrite lookup_insert_ne in Hl by done. by left.
        -- right. eauto 8.
      * intros [Hl|(f & tfv' & [[-> [= ->]]|Hin] & Hf' & Hd)].
        -- left. rewrite lookup_insert_ne; [done|]. intros <-.
           rewrite Hfresh in Hl by left. done.
        -- left. simplify_eq. by rewrite lookup_insert_eq.
        -- right. eauto.
    + specialize (IH acc Hok Hnd Hfresh).
      assert (captured spec (MCons k0 v pre) acc = captured spec pre acc) as Hc.
      { simpl. rewrite Hf. by destruct v. }
      cbn [captured] in Hc. rewrite Hf in Hc. rewrite Hc.
      destruct (captured spec pre acc) as [snap|]; [|simpl; by rewrite Hf].
      intros k s. rewrite IH. simpl. split.
      * intros [?|(f & tfv' & Hin & Hf' & Hd)]; [by left|]. right. eauto 8.
      * intros [?|(f & tfv' & [[-> _]|Hin] & Hf' & Hd)]; [by left| |right; eauto].
        congruence.
Qed.

(** ** The sample snapshot *)

Lemma sample_doc_tokens :
  tokens_of sample_doc = doc_tokens main_spec sample_pre sample_items [TDelim RBrace].
Proof. reflexivity. Qed.

Lemma sample_fields_ok : fields_ok main_spec sample_pre.
Proof. vm_compute. repeat split; try discriminate; eauto. Defined.

Lemma sample_all_objects : all_objects sample_items.
Proof. vm_compute. repeat split; discriminate. Defined.

(** ** Facts used by the claims *)

Lemma captured_keeps spec k : ∀ pre acc,
  fields_ok spec pre → is_Some (default ∅ acc !! k) →
  ∃ snap, captured spec pre acc = Some snap ∧ is_Some (snap !! k).
Proof.
  induction pre as [|k0 v pre IH]; intros acc Hok Hk.
  - destruct acc as [m|]; simpl in *; [eauto|]. rewrite lookup_empty in Hk. by destruct Hk.
  - destruct Hok as (_ & Hv & Hok). cbn [captured].
    destruct (Fields spec !! k0) as [tfv|] eqn:Hf.
    + destruct Hv as [s0 ->]. apply IH; [done|]. simpl.
      rewrite lookup_insert. case_decide; [eauto|done].
    + destruct v; by apply IH.
Qed.

Lemma captured_present spec f tfv s : ∀ pre acc,
  fields_ok spec pre → has_field f (JString s) pre → Fields spec !! f = Some tfv →
  ∃ snap, captured spec pre acc = Some snap ∧ is_Some (snap !! dest_name f tfv).
Proof.
  induction pre as [|k0 v pre IH]; intros acc Hok Hin Hf; [done|].
  destruct Hok as (_ & Hv & Hok). cbn [captured].
  destruct Hin as [[-> ->]|Hin].
  - rewrite Hf. apply captured_keeps; [done|]. simpl. rewrite lookup_insert_eq. eauto.
  - destruct (Fields spec !! k0) as [tfv0|] eqn:Hf0.
    + destruct Hv as [s0 ->]. by apply IH.
    + destruct v; by apply IH.
Qed.


Lemma items_of_SendItem (f : gmap string any → gmap string any) l :
  items_of (SendItem ∘ f <$> l) = f <$> l.
Proof. induction l as [|x l IH]; [done|]. cbn. f_equal. exact IH. Qed.

Lemma errors_of_SendItem (f : gmap string any → gmap string any) l :
  errors_of (SendItem ∘ f <$> l) = [].
Proof. induction l as [|x l IH]; [done|]. exact IH. Qed.

Lemma items_of_field_prints spec pre : items_of (field_prints spec pre) = [].
Proof.
  induction pre as [|k x pre IH]; [done|]. simpl. by destruct (Fields spec !! k).
Qed.


(** ** Claims about the producer *)

(** C1 (as amended): on a well-formed input every item sent holds, at its
    top level, every entry of the metadata map (the three provenance fields
    and, once a field was captured, [config_snapshot]), overwriting the
    element's own entries of the same name, and a [metadata] entry that
    refers to that same map; every other entry is the element's.  A captured
    field is not a top-level entry: it is an entry, under its destination
    name, of the nested map that [config_snapshot] refers to. *)
Theorem C1_items_carry_metadata spec now pre items rest :
  fields_ok spec pre → all_objects items →
  let r := producer spec now (doc_tokens spec pre items rest) in
  let metadata := map_any (heap_end r) (metadata_loc r) in
  heap_end r !! metadata_loc r = Some (MapAny metadata) ∧
  ∀ i v, items_of (trace r) !! i = Some v →
    ∃ e, decoded items !! i = Some e ∧
      v !! "metadata" = Some (AMapRef (metadata_loc r)) ∧
      (∀ k x, metadata !! k = Some x → v !! k = Some x) ∧
      (∀ k, k ≠ "metadata" → metadata !! k = None → v !! k = e !! k) ∧
      v !! "event_type" = Some (AString "config_snapshot") ∧
      v !! "event_source" = Some (AString "something_useful") ∧
      v !! "ingest_time" = Some (AString now) ∧
      (∀ f tfv s, has_field f (JString s) pre → Fields spec !! f = Some tfv →
         ∃ l snap, v !! snapshotKey = Some (AMapRef l) ∧
                   heap_end r !! l = Some (MapString snap) ∧
                   is_Some (snap !! dest_name f tfv)).
Proof.
  intros Hpre Hitems r metadata. subst r metadata.
  rewrite producer_well_formed by done. cbn [heap_end metadata_loc trace].
  remember (captured spec pre None) as snap eqn:Hsnap.
  split.
  { unfold map_any. destruct snap; reflexivity. }
  intros i v Hv.
  rewrite items_of_app in Hv.
  rewrite items_of_field_prints in Hv. simpl in Hv. rewrite items_of_app in Hv. simpl in Hv. rewrite app_nil_r in Hv.
  rewrite items_of_SendItem in Hv.
  apply list_lookup_fmap_Some in Hv as (e & -> & He).
  exists e. split; [done|].
  assert (Hflat : ∀ k x, map_any (heap_of now snap) 0 !! k = Some x →
                         enrich (heap_of now snap) 0 e !! k = Some x).
  { intros k x Hk. by rewrite enrich_lookup, Hk. }
  split_and!.
  - apply enrich_metadata.
  - done.
  - intros k Hk Hnone. rewrite enrich_lookup, Hnone. by rewrite lookup_insert_ne.
  - apply Hflat. rewrite map_any_heap_of. by destruct snap.
  - apply Hflat. rewrite map_any_heap_of. by destruct snap.
  - apply Hflat. rewrite map_any_heap_of. by destruct snap.
  - intros f tfv s Hin Hf.
    destruct (captured_present spec f tfv s pre None Hpre Hin Hf) as (m & Hm & Hd).
    rewrite Hm in Hsnap. subst snap. exists 1%nat, m. split_and!; [|done|done].
    apply Hflat. by rewrite map_any_heap_of.
Qed.

(** The first item of the sample run, with its metadata. *)
Lemma C1_items_carry_metadata_witness :
  fields_ok main_spec sample_pre ∧ all_objects sample_items ∧
  ∃ v, items_of (trace sample_run) !! 0%nat = Some v ∧
       v !! "metadata" = Some (AMapRef (metadata_loc sample_run)) ∧
       v !! "ingest_time" = Some (AString "2022-08-17T04:22:43Z").
Proof.
  split; [exact sample_fields_ok|]. split; [exact sample_all_objects|].
  destruct (C1_items_carry_metadata main_spec "2022-08-17T04:22:43Z" sample_pre sample_items
              [TDelim RBrace] sample_fields_ok sample_all_objects) as [_ H].
  destruct (items_of (trace sample_run) !! 0%nat) as [v|] eqn:Hv; [|by vm_compute in Hv].
  exists v. split; [done|].
  destruct (H 0%nat v Hv) as (e & _ & Hm & _ & _ & _ & _ & Ht & _).
  split; [exact Hm | exact Ht].
Defined.

(** C1 as stated fails: in the sample run no item has a top-level
    [fileVersion] or [configSnapshotId] entry. *)
Lemma C1_counterexample :
  ¬ (∀ v, v ∈ items_of (trace sample_run) →
          is_Some (v !! "fileVersion") ∧ is_Some (v !! "configSnapshotId")).
Proof.
  intros H.
  destruct (items_of (trace sample_run)) as [|v l] eqn:E; [by vm_compute in E|].
  destruct (H v) as [[x Hx] _]; [left|].
  assert (v !! "fileVersion" = None) as Hnone.
  { vm_compute in E. injection E as <- _. reflexivity. }
  congruence.
Qed.

Lemma captured_none spec : ∀ pre acc,
  destinations spec pre = [] → captured spec pre acc = acc.
Proof.
  induction pre as [|k v pre IH]; intros acc Hd; [done|].
  simpl in *. destruct (Fields spec !! k); [done|].
  destruct v; by apply IH.
Qed.

(** C2 (as amended): on a well-formed input the metadata map that every item
    refers to has the three provenance fields and, when a field was captured,
    the one further key [config_snapshot], and no other key; the captured
    fields are the entries of the nested map that [config_snapshot] refers
    to, under their destination names and with the source document's
    strings (the destinations being distinct). *)
Theorem C2_metadata_content spec now pre items rest :
  fields_ok spec pre → all_objects items → NoDup (destinations spec pre) →
  let r := producer spec now (doc_tokens spec pre items rest) in
  ∃ metadata,
    heap_end r !! metadata_loc r = Some (MapAny metadata) ∧
    (∀ v, v ∈ items_of (trace r) → v !! "metadata" = Some (AMapRef (metadata_loc r))) ∧
    metadata !! "event_type" = Some (AString "config_snapshot") ∧
    metadata !! "event_source" = Some (AString "something_useful") ∧
    metadata !! "ingest_time" = Some (AString now) ∧
    (∀ k, is_Some (metadata !! k) →
          k ∈ ["event_type"; "event_source"; "ingest_time"; snapshotKey]) ∧
    (destinations spec pre = [] → metadata !! snapshotKey = None) ∧
    (destinations spec pre ≠ [] →
       ∃ l snap,
         metadata !! snapshotKey = Some (AMapRef l) ∧
         heap_end r !! l = Some (MapString snap) ∧
         ∀ k s, snap !! k = Some s ↔
           ∃ f tfv, has_field f (JString s) pre ∧
                    Fields spec !! f = Some tfv ∧ dest_name f tfv = k).
Proof.
  intros Hpre Hitems Hnd r. subst r.
  rewrite producer_well_formed by done. cbn [heap_end metadata_loc trace].
  pose proof (captured_lookup spec pre None Hpre Hnd (λ k _, lookup_empty k)) as Hcap.
  remember (captured spec pre None) as snap eqn:Hsnap.
  exists (map_any (heap_of now snap) 0). split_and!.
  - unfold map_any. by destruct snap.
  - intros v Hv. rewrite items_of_app, items_of_field_prints in Hv. simpl in Hv.
    rewrite items_of_app, items_of_SendItem, app_nil_r in Hv.
    apply list_elem_of_fmap in Hv as (e & -> & _). apply enrich_metadata.
  - rewrite map_any_heap_of. by destruct snap.
  - rewrite map_any_heap_of. by destruct snap.
  - rewrite map_any_heap_of. by destruct snap.
  - intros k Hk. apply metadata_keys in Hk as [->|[->|[->|[-> _]]]];
      rewrite !elem_of_cons; auto 6.
  - intros Hd. rewrite captured_none in Hsnap by done. subst snap. reflexivity.
  - intros Hd. destruct snap as [m|]; [|by destruct Hcap].
    exists 1%nat, m. split_and!; [reflexivity..|].
    intros k s. rewrite Hcap. simpl. rewrite lookup_empty.
    split; [by intros [?|?] | by right].
Qed.

Lemma C2_metadata_content_witness :
  fields_ok main_spec sample_pre ∧ all_objects sample_items ∧
  NoDup (destinations main_spec sample_pre) ∧
  ∃ metadata, heap_end sample_run !! metadata_loc sample_run = Some (MapAny metadata) ∧
              metadata !! "ingest_time" = Some (AString "2022-08-17T04:22:43Z").
Proof.
  assert (Hnd : NoDup (destinations main_spec sample_pre)).
  { vm_compute. repeat constructor; rewrite ?list_elem_of_In; simpl; intuition discriminate. }
  split; [exact sample_fields_ok|]. split; [exact sample_all_objects|]. split; [exact Hnd|].
  destruct (C2_metadata_content main_spec "2022-08-17T04:22:43Z" sample_pre sample_items
              [TDelim RBrace] sample_fields_ok sample_all_objects Hnd)
    as (metadata & Hm & _ & _ & _ & Ht & _).
  exists metadata. split; [exact Hm | exact Ht].
Defined.

(** C2 as stated fails: the metadata map of the sample run has no
    [fileVersion] key and has a [config_snapshot] key. *)
Lemma C2_counterexample :
  ¬ (∀ k, is_Some (map_any (heap_end sample_run) (metadata_loc sample_run) !! k) ↔
          k ∈ ["fileVersion"; "configSnapshotId"; "event_type"; "event_source"; "ingest_time"]).
Proof.
  intros H. destruct (H "fileVersion") as [_ H'].
  destruct H' as [x Hx]; [by left|]. vm_compute in Hx. discriminate.
Qed.

(** C3 (the code departs from it): after the malformed second element the
    producer has sent the first item and one decode error, and then panics
    on the nil map instead of skipping the element; the third element is
    never decoded. *)
Theorem C3_malformed_element_panics :
  let r := producer main_spec "2022-08-17T04:22:43Z" (tokens_of bad_element_doc) in
  errors_of (trace r) = [Errorf "decodeItems: %w" [] (Some UnmarshalTypeError)] ∧
  length (items_of (trace r)) = 1%nat ∧
  ending r = Panic "assignment to entry in nil map".
Proof. vm_compute. done. Qed.

(** Whenever [Decode] leaves the map nil, the loop body panics. *)
Lemma decodeItems_loop_nil_map fuel h metadata d err d' :
  More d = true → Decode d = (None, err, d') →
  ∃ reported,
    decodeItems_loop (S fuel) h metadata d
    = (reported, Panic "assignment to entry in nil map", d') ∧
    items_of reported = [].
Proof.
  intros HM HD. cbn [decodeItems_loop]. rewrite HM, HD.
  destruct err; eauto.
Qed.

(** Any array element that is not an object ends the producer that way. *)
Lemma decodeItems_loop_not_object fuel h metadata j rest :
  (∀ ms, j ≠ JObject ms) → (depth j ≤ maxNestingDepth)%Z →
  ∃ reported,
    decodeItems_loop (S fuel) h metadata (tokens_of j ++ rest)
    = (reported, Panic "assignment to entry in nil map", rest) ∧
    items_of reported = [].
Proof.
  intros Hj Hd. cbn [decodeItems_loop].
  assert (More (tokens_of j ++ rest) = true) as -> by (by destruct j).
  destruct decode_run_tokens as (H & _ & _).
  unfold Decode. rewrite H by done. unfold resume. cbn [plug].
  destruct j as [| | | | |ms]; cbn [to_any]; eauto.
  by destruct (Hj ms).
Qed.







(** C9: in any run, every item sent refers under [metadata] to the one
    metadata map of the run, and carries that map's entries as they are at
    the end of the run; so any two items of a run agree on them. *)
Theorem C9_metadata_shared spec now r :
  let p := producer spec now r in
  ∃ metadata,
    heap_end p !! metadata_loc p = Some (MapAny metadata) ∧
    (∀ v, v ∈ items_of (trace p) →
       v !! "metadata" = Some (AMapRef (metadata_loc p)) ∧
       ∀ k x, metadata !! k = Some x → v !! k = Some x) ∧
    (∀ v1 v2, v1 ∈ items_of (trace p) → v2 ∈ items_of (trace p) →
       v1 !! "metadata" = v2 !! "metadata" ∧
       ∀ k, is_Some (metadata !! k) → v1 !! k = v2 !! k).
Proof.
  intros p.
  assert (∃ snap, heap_end p = heap_of now snap ∧ metadata_loc p = 0%nat ∧
            ∀ v, v ∈ items_of (trace p) → ∃ m, v = enrich (heap_of now snap) 0 m)
    as (snap & Hh & Hl & Hi).
  { subst p. unfold producer. rewrite make_metadata.
    destruct (expect r (TDelim LBrace)) as [[err|] d].
    - exists None. split_and!; [done..|]. by intros v Hv%elem_of_nil.
    - pose proof (scan_loop_any spec now (S (length r)) None d) as Hpost.
      destruct (scan_loop _ _ _ _ _) as [[evs h'] c].
      destruct Hpost as (_ & _ & [snap ->] & Hi & _).
      exists snap. split_and!; [done..|].
      cbn [trace]. intros v Hv. rewrite items_of_app in Hv. simpl in Hv.
      rewrite app_nil_r in Hv. auto. }
  rewrite Hh, Hl.
  assert (Hall : ∀ v, v ∈ items_of (trace p) →
    v !! "metadata" = Some (AMapRef 0) ∧
    ∀ k x, map_any (heap_of now snap) 0 !! k = Some x → v !! k = Some x).
  { intros v (m & ->)%Hi. split; [apply enrich_metadata|].
    intros k x Hk. by rewrite enrich_lookup, Hk. }
  exists (map_any (heap_of now snap) 0). split_and!.
  - unfold map_any. by destruct snap.
  - done.
  - intros v1 v2 [H1 H1']%Hall [H2 H2']%Hall. split; [congruence|].
    intros k [x Hx]. by rewrite (H1' k x Hx), (H2' k x Hx).
Qed.

Lemma C9_metadata_shared_witness :
  ∃ v1 v2, items_of (trace sample_run) = [v1; v2] ∧
           v1 !! "metadata" = v2 !! "metadata" ∧
           v1 !! "ingest_time" = v2 !! "ingest_time".
Proof.
  destruct (C9_metadata_shared main_spec "2022-08-17T04:22:43Z" (tokens_of sample_doc))
    as (metadata & Hm & _ & Hagree).
  fold sample_run in Hm, Hagree.
  destruct (items_of (trace sample_run)) as [|v1 [|v2 [|v3 l]]] eqn:E;
    try (by vm_compute in E).
  exists v1, v2. split; [done|].
  destruct (Hagree v1 v2) as [H1 H2]; [by left | by right; left|].
  split; [exact H1|]. apply H2.
  vm_compute in Hm. injection Hm as <-. vm_compute. eauto.
Defined.

(** ** The program as a transition system *)

Lemma insert_split {A} (l : list A) i x y :
  l !! i = Some x →
  ∃ l1 l2, l = l1 ++ x :: l2 ∧ <[i := y]> l = l1 ++ y :: l2 ∧ length l1 = i.
Proof.
  intros (l1 & l2 & -> & ->)%list_elem_of_split_length.
  exists l1, l2. split_and!; [done| |done].
  rewrite insert_app_r_alt by lia. by rewrite Nat.sub_diag.
Qed.





Lemma exec_rtc sprintf_len acts : ∀ s s',
  exec sprintf_len acts s = Some s' → rtc (step sprintf_len) s s'.
Proof.
  induction acts as [|a acts IH]; intros s s' H; simpl in H.
  - by simplify_eq.
  - destruct (do_action sprintf_len a s) as [s1|] eqn:Ha; [|done].
    eapply rtc_l; [by exists a|]. by apply IH.
Qed.

Lemma prod_shape_body e p ec ic :
  prod_shape (e :: p) ec ic → is_body e →
  ec = false ∧ ic = false ∧ prod_shape p false false ∧
  (length (errors_of (e :: p)) ≤ 1)%nat.
Proof.
  destruct ec, ic; simpl; try done.
  - intros [= -> ->]. done.
  - intros (body & Hp & Hb & He) Hbody.
    destruct body as [|e' body]; simplify_eq/=; [done|].
    apply Forall_cons in Hb as [_ Hb].
    split_and!; try done.
    + exists body. split_and!; try done. destruct e'; simpl in *; lia.
    + change (length (errors_of ((e' :: body) ++ [CloseErrors; CloseItems])) ≤ 1)%nat.
      rewrite errors_of_app. simpl. rewrite app_nil_r. done.
Qed.

Lemma prod_shape_close_errors p ec ic :
  prod_shape (CloseErrors :: p) ec ic → ec = false ∧ ic = false ∧ p = [CloseItems].
Proof.
  destruct ec, ic; simpl; try done.
  intros (body & Hp & Hb & _).
  destruct body as [|e' body]; simplify_eq/=; [done|].
  by apply Forall_cons in Hb as [[] _].
Qed.

Lemma prod_shape_close_items p ec ic :
  prod_shape (CloseItems :: p) ec ic → ec = true ∧ ic = false ∧ p = [].
Proof.
  destruct ec, ic; simpl; try done.
  - by intros [= ->].
  - intros (body & Hp & Hb & _).
    destruct body as [|e' body]; simplify_eq/=.
    by apply Forall_cons in Hb as [[] _].
Qed.


Lemma prod_shape_errors_closed p ic : prod_shape p true ic → errors_of p = [].
Proof. destruct ic; simpl; by intros ->. Qed.

Lemma ended_app ws1 ws2 : ended (ws1 ++ ws2) = ended ws1 ++ ended ws2.
Proof. apply omap_app. Qed.

Lemma ended_cons w ws :
  ended (w :: ws) = if running w then ended ws else status w :: ended ws.
Proof. unfold ended. simpl. by destruct (running w). Qed.

Lemma ended_insert_running ws n w w' :
  ws !! n = Some w → running w = true → running w' = true →
  ended (<[n := w']> ws) = ended ws.
Proof.
  intros (l1 & l2 & -> & -> & _)%(insert_split _ _ _ w') Hr Hr'.
  by rewrite !ended_app, !ended_cons, Hr, Hr'.
Qed.

Lemma ended_insert_end ws n w w' :
  ws !! n = Some w → running w = true → running w' = false →
  ended (<[n := w']> ws) ≡ₚ ended ws ++ [status w'].
Proof.
  intros (l1 & l2 & -> & -> & _)%(insert_split _ _ _ w') Hr Hr'.
  rewrite !ended_app, !ended_cons, Hr, Hr'. rewrite <- app_assoc.
  apply Permutation_app_head. apply Permutation_cons_append.
Qed.

Lemma live_cons w ws :
  live (w :: ws) = ((if running w then 1 else 0) + live ws)%nat.
Proof. reflexivity. Qed.

Lemma ended_length ws : (length (ended ws) + live ws = length ws)%nat.
Proof.
  induction ws as [|w ws IH]; [done|].
  rewrite ended_cons, live_cons. destruct (running w); simpl; lia.
Qed.

Lemma live_zero ws : live ws = 0%nat → Forall (λ w, running w = false) ws.
Proof.
  induction ws as [|w ws IH]; [constructor|].
  rewrite live_cons. destruct (running w) eqn:Hr; [lia|].
  intros H. constructor; auto.
Qed.


Lemma live_all ws : Forall (λ w, running w = true) ws → live ws = length ws.
Proof.
  induction 1 as [|w ws Hr _ IH]; [done|].
  rewrite live_cons, Hr, IH. done.
Qed.

(** Every move keeps the control invariant. *)
Lemma do_action_ctl sprintf_len a s s' :
  do_action sprintf_len a s = Some s' → ctl s → ctl s'.
Proof.
  unfold do_action. destruct (crashed s) eqn:Hc; [done|].
  intros Ha [Hint Hprod Hlen Hnum Hopen Hstat Hcaller].
  destruct a as [|n| | | | |n t| |].
  - destruct (prod s) as [|[] p] eqn:Hp; try done. simplify_eq.
    apply prod_shape_body in Hprod as (He & Hi & Hprod & _); [|done].
    constructor; simpl; try done.
    by rewrite He, Hi.
  - destruct (prod s) as [|[] p] eqn:Hp; try done.
    destruct (workers s !! n) as [w|] eqn:Hw; [|done].
    destruct (running w) eqn:Hr; [|done]. simplify_eq.
    apply prod_shape_body in Hprod as (He & Hi & Hprod & _); [|done].
    constructor; simpl; try done.
    + by rewrite He, Hi.
    + by rewrite length_insert.
    + intros i w' Hi'. destruct (decide (i = n)) as [->|Hne].
      * rewrite list_lookup_insert_eq in Hi' by (by eapply lookup_lt_Some).
        simplify_eq. simpl. destruct (Write (writer w) v); simpl; by apply Hnum.
      * rewrite list_lookup_insert_ne in Hi' by done. by apply Hnum.
    + intros _. apply Forall_insert; [by apply Hopen|done].
    + by rewrite (ended_insert_running _ _ w).
  - destruct (prod s) as [|[] p] eqn:Hp; try done.
    destruct (caller s) eqn:Hcl; try done. simplify_eq.
    apply prod_shape_body in Hprod as (He & Hi & Hprod & Herr); [|done].
    constructor; simpl; try done.
    + by rewrite He, Hi.
    + rewrite Hcaller. split; [done|].
      change (errors_of (SendError e :: p)) with (e :: errors_of p) in Herr.
      destruct (errors_of p); [done|]. simpl in Herr. lia.
  - destruct (prod s) as [|[] p] eqn:Hp; try done; simplify_eq.
    + apply prod_shape_close_errors in Hprod as (He & Hi & ->).
      constructor; simpl; try done;
        first [ by rewrite Hi | destruct (caller s); try done; by destruct Hcaller ].
    + apply prod_shape_close_items in Hprod as (He & Hi & ->).
      constructor; simpl; try done;
        first [ by rewrite He | destruct (caller s); try done; by destruct Hcaller ].
  - destruct (prod s) as [|? p] eqn:Hp; try done.
    destruct (prod_panic s); [|done]. simplify_eq.
    constructor; simpl; try done; by rewrite Hp.
  - destruct (caller s) eqn:Hcl; try done.
    destruct (cErrors_closed s) eqn:He; [|done]. simplify_eq.
    constructor; simpl; try done.
    + by rewrite He.
    + rewrite Hcaller. split; [done|]. by eapply prod_shape_errors_closed.
  - destruct (workers s !! n) as [w|] eqn:Hw; [|done].
    destruct (running w) eqn:Hr; [|done].
    destruct (cItems_closed s) eqn:Hi; [|done]. case_bool_decide; [|done].
    simpl in Ha. simplify_eq.
    constructor; simpl; try done.
    + by rewrite Hi.
    + by rewrite length_insert.
    + intros i w' Hi'. destruct (decide (i = n)) as [->|Hne].
      * rewrite list_lookup_insert_eq in Hi' by (by eapply lookup_lt_Some).
        simplify_eq. simpl. by apply Hnum.
      * rewrite list_lookup_insert_ne in Hi' by done. by apply Hnum.
    + by rewrite Hi.
    + rewrite (ended_insert_end _ _ w) by done. simpl.
      rewrite app_assoc. by apply Permutation_app_tail.
  - destruct (caller s) as [|i ic ib|] eqn:Hcl; try done.
    destruct (chStatus s) as [|st b] eqn:Hb; [done|].
    destruct (i <? poolSize s)%Z eqn:Hlt; [|done]. simplify_eq.
    destruct Hcaller as [-> Herr].
    constructor; simpl; try done.
    + by rewrite <- app_assoc.
    + split; [|done]. rewrite length_app. simpl.
      rewrite wrap_int_small; lia.
  - destruct (caller s) as [|i ic ib|] eqn:Hcl; try done.
    destruct (i <? poolSize s)%Z eqn:Hlt; [done|]. simplify_eq.
    destruct Hcaller as [-> Herr].
    constructor; simpl; try done. split; [lia|done].
Qed.

Lemma rtc_ctl sprintf_len s s' :
  rtc (step sprintf_len) s s' → ctl s → ctl s'.
Proof.
  induction 1 as [|s1 s2 s3 [a Ha] _ IH]; [done|].
  intros H. apply IH. by eapply do_action_ctl.
Qed.

(** The producer's trace, whatever the input: its body, in which nothing is
    closed and at most one error is sent, and then the two deferred closes;
    and the budget of the model is never used up. *)
Lemma producer_trace spec now r :
  ∃ body, trace (producer spec now r) = body ++ [CloseErrors; CloseItems] ∧
          Forall is_body body ∧ (length (errors_of body) ≤ 1)%nat ∧
          ending (producer spec now r) ≠ Exhausted.
Proof.
  unfold producer. rewrite make_metadata.
  destruct (expect r (TDelim LBrace)) as [[err|] d] eqn:HE.
  - eexists. split; [reflexivity|]. split_and!; [repeat constructor|simpl; lia|done].
  - apply expect_ok in HE as ->.
    pose proof (scan_loop_any spec now (S (length (TDelim LBrace :: d))) None d) as Hpost.
    destruct (scan_loop _ _ _ _ _) as [[evs h'] c].
    destruct Hpost as (Hb & He & _ & _ & Hf).
    exists evs. split_and!; try done. apply Hf. simpl. lia.
Qed.

Lemma ended_all_running ws : Forall (λ w, running w = true) ws → ended ws = [].
Proof.
  induction 1 as [|w ws Hr _ IH]; [done|]. by rewrite ended_cons, Hr.
Qed.

Lemma NewWriterPool_lookup f size start i w :
  NewWriterPool f size start !! i = Some w → w = start_worker f start i.
Proof.
  unfold NewWriterPool. rewrite list_lookup_fmap.
  destruct (seq 0 (Z.to_nat size) !! i) as [j|] eqn:E; [|done].
  apply lookup_seq in E as [-> _]. by intros [= <-].
Qed.

Lemma NewWriterPool_running f size start :
  Forall (λ w, running w = true) (NewWriterPool f size start).
Proof.
  apply Forall_forall. intros w (j & -> & _)%list_elem_of_fmap. done.
Qed.

(** The control invariant holds when the program starts. *)
Lemma init_ctl r writerFactory poolSize spec now start :
  (poolSize < 2 ^ 63)%Z →
  ctl (DecodeAndSplitItems r writerFactory poolSize spec now start).
Proof.
  intros Hint. constructor; simpl; try done.
  - destruct (producer_trace spec now r) as (body & Hb & ? & ? & _). eauto.
  - unfold NewWriterPool. by rewrite length_fmap, length_seq.
  - intros i w ->%NewWriterPool_lookup. done.
  - intros _. apply NewWriterPool_running.
  - by rewrite ended_all_running by apply NewWriterPool_running.
Qed.


(** The statuses on the status channel and with the caller all come from the
    end of a worker's loop. *)
Lemma do_action_status sprintf_len a s s' :
  do_action sprintf_len a s = Some s' →
  Forall (λ st, Status st = "ended normally") (chStatus s ++ received s) →
  Forall (λ st, Status st = "ended normally") (chStatus s' ++ received s').
Proof.
  unfold do_action. destruct (crashed s); [done|].
  destruct a as [|n| | | | |n t| |]; intros Ha H;
    case_enabled Ha; simplify_eq; simpl; try done.
  - rewrite <- app_assoc. apply Forall_app in H as [H1 H2].
    apply Forall_app. split; [done|]. apply Forall_app. split; [|done].
    by repeat constructor.
  - simpl in H. apply Forall_cons in H as [Hst H].
    apply Forall_app in H as [H1 H2].
    apply Forall_app. split; [done|]. apply Forall_app. split; [done|].
    by repeat constructor.
Qed.

(** ** Counting the items *)

Lemma sum_items_app l1 l2 : sum_items (l1 ++ l2) = (sum_items l1 + sum_items l2)%Z.
Proof. induction l1 as [|st l1 IH]; simpl; [done|]. rewrite IH. lia. Qed.

Lemma sum_items_perm l1 l2 : l1 ≡ₚ l2 → sum_items l1 = sum_items l2.
Proof. induction 1; simpl; lia. Qed.

Lemma sum_items_nonneg l :
  Forall (λ st, (0 ≤ ItemCount st)%Z) l → (0 ≤ sum_items l)%Z.
Proof. induction 1; simpl; lia. Qed.

Lemma ended_sublist ws : ended ws `sublist_of` status <$> ws.
Proof.
  induction ws as [|w ws IH]; [constructor|].
  rewrite ended_cons, fmap_cons. destruct (running w); by constructor.
Qed.

Lemma ended_Forall (P : WorkerStatus → Prop) ws :
  Forall P (status <$> ws) → Forall P (ended ws).
Proof.
  induction ws as [|w ws IH]; [done|].
  rewrite fmap_cons, ended_cons. intros [? ?]%Forall_cons.
  destruct (running w); [auto|constructor; auto].
Qed.

Lemma sum_items_sublist l1 l2 :
  l1 `sublist_of` l2 → Forall (λ st, (0 ≤ ItemCount st)%Z) l2 →
  (sum_items l1 ≤ sum_items l2)%Z.
Proof.
  induction 1 as [|st l1 l2 _ IH|st l1 l2 _ IH]; intros Hnn; simpl; [lia|..];
    apply Forall_cons in Hnn as [? Hnn]; specialize (IH Hnn); lia.
Qed.

Lemma receive_ItemCount sprintf_len v w :
  ItemCount (status (receive sprintf_len v w)) = wrap_int (ItemCount (status w) + 1).
Proof. unfold receive. simpl. by destruct (Write (writer w) v). Qed.

(** Every move keeps the counting invariant. *)
Lemma do_action_cnt sprintf_len M a s s' :
  do_action sprintf_len a s = Some s' → ctl s → cnt M s → cnt M s'.
Proof.
  unfold do_action. destruct (crashed s) eqn:Hc; [done|].
  intros Ha [Hint Hprod Hlen Hnum Hopen Hstat Hcaller] [HM Hnn Htot Hcc].
  destruct a as [|n| | | | |n t| |].
  - destruct (prod s) as [|[] p] eqn:Hp; try done. simplify_eq.
    constructor; simpl; done.
  - destruct (prod s) as [|[] p] eqn:Hp; try done.
    destruct (workers s !! n) as [w|] eqn:Hw; [|done].
    destruct (running w) eqn:Hr; [|done]. simplify_eq.
    destruct (insert_split _ _ _ (receive sprintf_len v w) Hw) as (l1 & l2 & Hws & Hins & _).
    rewrite Hws in Hnn, Htot. rewrite fmap_app, fmap_cons in Hnn, Htot.
    apply Forall_app in Hnn as [Hnn1 Hnn2]. apply Forall_cons in Hnn2 as [Hnnw Hnn2].
    rewrite sum_items_app in Htot.
    change (items_of (SendItem v :: p)) with (v :: items_of p) in Htot.
    cbn [sum_items foldr length] in Htot. fold (sum_items (status <$> l2)) in Htot.
    pose proof (sum_items_nonneg _ Hnn1). pose proof (sum_items_nonneg _ Hnn2).
    assert (ItemCount (status (receive sprintf_len v w)) = ItemCount (status w) + 1)%Z as Hic.
    { rewrite receive_ItemCount. apply wrap_int_small. lia. }
    constructor; simpl; try done.
    + rewrite Hins, fmap_app, fmap_cons. apply Forall_app. split; [done|].
      constructor; [lia|done].
    + rewrite Hins, fmap_app, fmap_cons, sum_items_app.
      cbn [sum_items foldr]. fold (sum_items (status <$> l2)). lia.
  - destruct (prod s) as [|[] p] eqn:Hp; try done.
    destruct (caller s) eqn:Hcl; try done. simplify_eq.
    constructor; simpl; try done. by rewrite Hcaller.
  - destruct (prod s) as [|[] p] eqn:Hp; try done; simplify_eq;
      constructor; simpl; done.
  - destruct (prod s) as [|? p] eqn:Hp; try done.
    destruct (prod_panic s); [|done]. simplify_eq.
    constructor; simpl; try done. by rewrite Hp.
  - destruct (caller s) eqn:Hcl; try done.
    destruct (cErrors_closed s) eqn:He; [|done]. simplify_eq.
    constructor; simpl; try done. by rewrite Hcaller.
  - destruct (workers s !! n) as [w|] eqn:Hw; [|done].
    destruct (running w) eqn:Hr; [|done].
    destruct (cItems_closed s) eqn:Hi; [|done]. case_bool_decide; [|done].
    simpl in Ha. simplify_eq.
    destruct (insert_split _ _ _
      {| writer := writer w; status := final_status t (status w); running := false |} Hw)
      as (l1 & l2 & Hws & Hins & _).
    rewrite Hws in Hnn, Htot. rewrite fmap_app, fmap_cons in Hnn, Htot.
    constructor; simpl; try done.
    + rewrite Hins, fmap_app, fmap_cons.
      apply Forall_app in Hnn as [Hnn1 Hnn2]. apply Forall_cons in Hnn2 as [Hnnw Hnn2].
      apply Forall_app. split; [done|]. by constructor.
    + rewrite Hins, fmap_app, fmap_cons, sum_items_app.
      rewrite sum_items_app in Htot. exact Htot.
  - destruct (caller s) as [|i ic ib|] eqn:Hcl; try done.
    destruct (chStatus s) as [|st b] eqn:Hb; [done|].
    destruct (i <? poolSize s)%Z eqn:Hlt; [|done]. simplify_eq.
    constructor; simpl; try done.
    rewrite sum_items_app. simpl.
    assert (Forall (λ st, (0 ≤ ItemCount st)%Z) (received s ++ st :: b)) as Hrnn.
    { rewrite Hstat. by apply ended_Forall. }
    pose proof (sum_items_sublist _ _ (ended_sublist (workers s)) Hnn) as Hle.
    rewrite <- (sum_items_perm _ _ Hstat), sum_items_app in Hle. simpl in Hle.
    apply Forall_app in Hrnn as [Hr1 Hr2]. apply Forall_cons in Hr2 as [Hst Hr2].
    pose proof (sum_items_nonneg _ Hr1). pose proof (sum_items_nonneg _ Hr2).
    rewrite wrap_int_small; lia.
  - destruct (caller s) as [|i ic ib|] eqn:Hcl; try done.
    destruct (i <? poolSize s)%Z eqn:Hlt; [done|]. simplify_eq.
    constructor; simpl; done.
Qed.

Lemma rtc_ctl_cnt sprintf_len M s s' :
  rtc (step sprintf_len) s s' → ctl s → cnt M s → ctl s' ∧ cnt M s'.
Proof.
  induction 1 as [|s1 s2 s3 [a Ha] _ IH]; [done|].
  intros H1 H2. apply IH; [by eapply do_action_ctl | by eapply do_action_cnt].
Qed.

Lemma sum_items_start f start n k :
  sum_items (status <$> (start_worker f start <$> seq k n)) = 0%Z.
Proof. revert k. induction n as [|n IH]; intros k; simpl; [done|]. by rewrite IH. Qed.

(** The counting invariant holds when the program starts. *)
Lemma init_cnt r writerFactory poolSize spec now start :
  (Z.of_nat (length (items_of (trace (producer spec now r)))) < 2 ^ 63)%Z →
  cnt (length (items_of (trace (producer spec now r))))
      (DecodeAndSplitItems r writerFactory poolSize spec now start).
Proof.
  intros HM. constructor; simpl; try done.
  - apply Forall_fmap, Forall_forall. intros w (j & -> & _)%list_elem_of_fmap. done.
  - unfold NewWriterPool. rewrite sum_items_start. lia.
Qed.

Lemma ended_all_ended ws :
  Forall (λ w, running w = false) ws → ended ws = status <$> ws.
Proof.
  induction 1 as [|w ws Hr _ IH]; [done|]. by rewrite ended_cons, Hr, IH.
Qed.


(** Once the caller is past its status loop it holds the final status of
    every worker. *)
Lemma ctl_finished s itemCount itemBytes :
  ctl s → caller s = Finished itemCount itemBytes →
  received s ≡ₚ status <$> workers s ∧
  Forall (λ w, running w = false) (workers s) ∧
  ((1 ≤ poolSize s)%Z → prod s = [] ∧ cItems_closed s = true).
Proof.
  intros [Hint Hprod Hlen Hnum Hopen Hstat Hcaller] Hcl. rewrite Hcl in Hcaller.
  destruct Hcaller as [Hrec _].
  assert (Hlive : (length (received s) + length (chStatus s) + live (workers s)
                   = Z.to_nat (poolSize s))%nat).
  { rewrite <- Hlen, <- (ended_length (workers s)), <- Hstat, length_app. done. }
  assert (live (workers s) = 0%nat) as Hz by lia.
  assert (chStatus s = []) as Hb by (apply length_zero_iff_nil; lia).
  pose proof (live_zero _ Hz) as Hall.
  rewrite Hb, app_nil_r, (ended_all_ended _ Hall) in Hstat.
  split_and!; try done.
  intros HN.
  assert (cItems_closed s = true) as Hi.
  { destruct (cItems_closed s) eqn:Hi; [done|].
    rewrite (live_all _ (Hopen eq_refl)) in Hz. lia. }
  split; [|done]. rewrite Hi in Hprod.
  destruct (cErrors_closed s); [done|]. by destruct Hprod.
Qed.


Lemma rtc_poolSize sprintf_len s s' :
  rtc (step sprintf_len) s s' → poolSize s' = poolSize s.
Proof.
  induction 1 as [|s1 s2 s3 [a Ha] _ IH]; [done|].
  rewrite IH. unfold do_action in Ha. destruct (crashed s1); [done|].
  destruct a;
    case_enabled Ha; by simplify_eq.
Qed.

(** ** Claims about the pool and the caller *)







(** C10: every status a worker has sent, whether still on the status channel
    or already with the caller, says "ended normally", whatever its error
    count. *)
Theorem C10_status_ended_normally sprintf_len r writerFactory poolSize spec now start s :
  rtc (step sprintf_len) (DecodeAndSplitItems r writerFactory poolSize spec now start) s →
  Forall (λ st, Status st = "ended normally") (chStatus s ++ received s).
Proof.
  intros Hrtc.
  remember (DecodeAndSplitItems r writerFactory poolSize spec now start) as s0 eqn:Hs0.
  assert (Forall (λ st, Status st = "ended normally") (chStatus s0 ++ received s0)) as H0
    by (subst s0; constructor).
  clear Hs0. induction Hrtc as [|s1 s2 s3 [a Ha] _ IH]; [done|].
  apply IH. by eapply do_action_status.
Qed.

(** Both writes of the one worker fail, and its status still says so. *)
Lemma C10_status_ended_normally_witness :
  ∃ s st,
    exec (λ _, 0%Z) schedule_one
         (sample_program (FileWriterFactory (λ _, ([], None)) failing_writer None) 1)
    = Some s ∧
    received s = [st] ∧ ErrorCount st = 2%Z ∧ ItemCount st = 2%Z ∧
    Status st = "ended normally".
Proof.
  destruct (exec (λ _, 0%Z) schedule_one
              (sample_program (FileWriterFactory (λ _, ([], None)) failing_writer None) 1))
    as [s|] eqn:E; [|by vm_compute in E].
  pose proof (exec_rtc _ _ _ _ E) as Hrtc.
  pose proof (C10_status_ended_normally _ _ _ _ _ _ _ _ Hrtc) as Hall.
  destruct (received s) as [|st [|st' l]] eqn:Hr;
    try (vm_compute in E; injection E as <-; discriminate).
  exists s, st. split; [done|]. split; [done|].
  apply Forall_app in Hall as [_ Hall]. apply Forall_cons in Hall as [Hst _].
  split_and!; [..|exact Hst].
  - vm_compute in E. injection E as <-. by injection Hr as <-.
  - vm_compute in E. injection E as <-. by injection Hr as <-.
Defined.

(** * Further properties *)

(** ** [skip] and [expect] *)





(** ** The producer at the edges of its input *)

(** X3: when the input does not begin with an object (it is empty, invalid,
    or begins with any other token) the producer sends exactly one error,
    built from what [expect] found, and nothing else: no item, no print; the
    metadata map is left as it was built, and the goroutine returns and
    closes both channels. *)
Theorem X3_not_an_object spec now r :
  (∀ d, r ≠ TDelim LBrace :: d) →
  let e := match r with
           | [] => Errorf "expect: %w" [] (Some EOF)
           | TInvalid :: _ => Errorf "expect: %w" [] (Some SyntaxError)
           | t :: _ => Errorf "got token %v, want token %v"
                              [ArgToken t; ArgToken (TDelim LBrace)] None
           end in
  producer spec now r
  = {| trace := [SendError (Errorf "DecodeAndSplitItems: %w" [] (Some e));
                 CloseErrors; CloseItems];
       heap_end := heap_of now None;
       metadata_loc := 0;
       ending := Normal tt |}.
Proof.
  intros Hr. unfold producer. rewrite make_metadata.
  destruct r as [|t d]; [done|].
  destruct t as [c|b|x|s| |]; try done.
  unfold expect. cbn [Token]. case_decide as Heq; [|done].
  simplify_eq. by destruct (Hr d).
Qed.

Lemma X3_not_an_object_witness :
  (∀ d, tokens_of (JArray sample_items) ≠ TDelim LBrace :: d) ∧
  items_of (trace (producer main_spec "now" (tokens_of (JArray sample_items)))) = [].
Proof.
  assert (H : ∀ d, tokens_of (JArray sample_items) ≠ TDelim LBrace :: d) by done.
  split; [exact H|].
  rewrite (X3_not_an_object main_spec "now" _ H). reflexivity.
Defined.





Lemma decodeItems_loop_objects_tail h metadata tail : ∀ items fuel,
  all_objects items → More tail = false →
  decodeItems_loop (jlength items + S fuel) h metadata (tokens_of_list items ++ tail)
  = (SendItem ∘ enrich h metadata <$> decoded items, Normal None, tail).
Proof.
  induction items as [|j items IH]; intros fuel Hobj HM.
  - simpl. by rewrite HM.
  - destruct j as [| | | | |ms]; try done. destruct Hobj as [Hd Hobj].
    cbn [tokens_of_list jlength Nat.add decodeItems_loop].
    rewrite <- app_assoc.
    replace (More (tokens_of (JObject ms) ++ tokens_of_list items ++ tail))
      with true by reflexivity.
    rewrite Decode_object by done. cbn match.
    rewrite IH by done. reflexivity.
Qed.

(** X6: the producer reads nothing past the last element of the array.
    Whatever stands there that is not a further element (the closing
    bracket and any later fields, captured ones included, a stray closing
    brace, or the end of a truncated input) the run is the same: the same
    items, the same metadata, no error, a normal end. *)
Theorem X6_nothing_read_after_array spec now pre items tail :
  fields_ok spec pre → all_objects items → More tail = false →
  producer spec now
    (TDelim LBrace :: tokens_of_members pre ++
     TString (ItemsField spec) :: TDelim LBracket :: tokens_of_list items ++ tail)
  = producer spec now (doc_tokens spec pre items []).
Proof.
  intros Hpre Hitems HM.
  rewrite producer_well_formed by done.
  destruct tokens_length as (_ & Hl & Hm). specialize (Hl items). specialize (Hm pre).
  unfold producer. rewrite make_metadata. cbn [expect Token].
  rewrite decide_True by done.
  assert (∃ k, S (length (TDelim LBrace :: tokens_of_members pre ++
                 TString (ItemsField spec) :: TDelim LBracket :: tokens_of_list items ++ tail))
               = (mlength pre + S (jlength items + S k))%nat) as [k ->].
  { cbn [length]. rewrite !length_app. cbn [length]. rewrite length_app.
    exists (length (tokens_of_members pre) - mlength pre
            + (length (tokens_of_list items) - jlength items) + length tail + 2)%nat.
    lia. }
  rewrite scan_loop_fields by done.
  cbn [scan_loop More Token]. rewrite decide_True by done.
  rewrite decodeItems_bracket, decodeItems_loop_objects_tail by done.
  rewrite scan_loop_no_more by done. rewrite Nat.add_succ_r.
  cbn zeta. f_equal. rewrite <- !app_assoc. reflexivity.
Qed.

Lemma X6_nothing_read_after_array_witness :
  fields_ok main_spec sample_pre ∧ all_objects sample_items ∧
  More (TDelim RBracket :: tokens_of_members (MCons "fileVersion" (JString "2.0") MNil)) = false ∧
  producer main_spec "now"
    (TDelim LBrace :: tokens_of_members sample_pre ++
     TString (ItemsField main_spec) :: TDelim LBracket :: tokens_of_list sample_items ++
     TDelim RBracket :: tokens_of_members (MCons "fileVersion" (JString "2.0") MNil))
  = producer main_spec "now" (doc_tokens main_spec sample_pre sample_items []).
Proof.
  split; [exact sample_fields_ok|]. split; [exact sample_all_objects|].
  split; [reflexivity|].
  apply (X6_nothing_read_after_array main_spec "now" sample_pre sample_items
           (TDelim RBracket :: tokens_of_members (MCons "fileVersion" (JString "2.0") MNil))
           sample_fields_ok sample_all_objects eq_refl).
Defined.





(** ** Errors end the producer's work *)





(** ** [addMetadata] *)

Lemma make_fresh (h : heap) o l h' : make h o = (l, h') → h !! l = None ∧ h' = <[l := o]> h.
Proof.
  unfold make. intros [= <- <-]. split; [|done].
  apply not_elem_of_dom. apply is_fresh.
Qed.

(** What [addMetadata] does before it looks at the value: the nested map
    exists afterwards, and nothing else has changed. *)
Lemma addMetadata_prepare h metadata :
  metadata_ok h metadata →
  ∃ h1 l sm,
    h1 = match map_any h metadata !! snapshotKey with
         | Some _ => h
         | None =>
             let '(l, h') := make h (MapString ∅) in
             <[metadata := MapAny (<[snapshotKey := AMapRef l]> (map_any h' metadata))]> h'
         end ∧
    l ≠ metadata ∧
    map_any h1 metadata !! snapshotKey = Some (AMapRef l) ∧
    h1 !! l = Some (MapString sm) ∧ sm = snapshot h metadata ∧
    (∃ m, h1 !! metadata = Some (MapAny m)) ∧
    (∀ k, k ≠ snapshotKey → map_any h1 metadata !! k = map_any h metadata !! k).
Proof.
  intros [[m Hm] Hsnap]. unfold snapshot.
  destruct (map_any h metadata !! snapshotKey) as [x|] eqn:Hk.
  - destruct x as [| | | | | |l]; try done. destruct Hsnap as [Hne [sm Hl]].
    exists h, l, sm. rewrite Hl. split_and!; eauto.
  - destruct (make h (MapString ∅)) as [l h'] eqn:Hmake.
    apply make_fresh in Hmake as [Hfresh ->].
    assert (l ≠ metadata) as Hne by (intros ->; congruence).
    assert (map_any (<[l := MapString ∅]> h) metadata = m) as Hm'.
    { unfold map_any. rewrite lookup_insert_ne by done. by rewrite Hm. }
    eexists _, l, ∅. split; [reflexivity|]. cbn zeta. rewrite Hm'.
    assert (∀ k, map_any (<[metadata := MapAny (<[snapshotKey := AMapRef l]> m)]>
                            (<[l := MapString ∅]> h)) metadata !! k
                 = <[snapshotKey := AMapRef l]> m !! k) as Hlook.
    { intros k. unfold map_any. by rewrite lookup_insert_eq. }
    split_and!; try done.
    + by rewrite Hlook, lookup_insert_eq.
    + rewrite lookup_insert_ne by done. by rewrite lookup_insert_eq.
    + rewrite lookup_insert_eq. eauto.
    + intros k Hkne. rewrite Hlook, lookup_insert_ne by done.
      unfold map_any. by rewrite Hm.
Qed.

(** X9: [addMetadata] with a string value returns nil and stores the value
    under [key] in the map nested under [config_snapshot], creating that map
    on first use; a value stored before under the same key is overwritten,
    the other captured values and every other entry of the metadata map are
    kept. *)
Theorem X9_addMetadata_stores_string h metadata key s :
  metadata_ok h metadata →
  ∃ h', addMetadata h metadata key (TString s) = (h', Normal None) ∧
        snapshot h' metadata = <[key := s]> (snapshot h metadata) ∧
        (∀ k, k ≠ snapshotKey → map_any h' metadata !! k = map_any h metadata !! k) ∧
        metadata_ok h' metadata.
Proof.
  intros Hok. unfold addMetadata.
  destruct (addMetadata_prepare h metadata Hok)
    as (h1 & l & sm & Hh1 & Hne & Hk & Hl & -> & [m Hm] & Hkeep).
  cbn zeta. rewrite <- Hh1, Hk, Hl. eexists. split; [reflexivity|].
  assert (∀ k, map_any (<[l := MapString (<[key := s]> (snapshot h metadata))]> h1) metadata !! k
               = map_any h1 metadata !! k) as Hsame.
  { intros k. unfold map_any. by rewrite lookup_insert_ne by done. }
  split_and!.
  - unfold snapshot at 1. rewrite Hsame, Hk. by rewrite lookup_insert_eq.
  - intros k Hkne. rewrite Hsame. by apply Hkeep.
  - split.
    + rewrite lookup_insert_ne by done. eauto.
    + rewrite Hsame, Hk. split; [done|]. rewrite lookup_insert_eq. eauto.
Qed.

Lemma heap_of_ok now snap : metadata_ok (heap_of now snap) 0.
Proof.
  split.
  - destruct snap; simpl; eexists; [rewrite lookup_insert_ne by done|];
      apply lookup_singleton_eq.
  - rewrite map_any_heap_of. destruct snap as [sm|]; [|done].
    rewrite lookup_insert_eq. split; [done|]. exists sm. apply lookup_insert_eq.
Qed.

Lemma X9_addMetadata_stores_string_witness :
  metadata_ok (heap_of "now" None) 0 ∧
  ∃ h', addMetadata (heap_of "now" None) 0 "fileVersion" (TString "1.0") = (h', Normal None) ∧
        snapshot h' 0 !! "fileVersion" = Some "1.0".
Proof.
  split; [apply heap_of_ok|].
  destruct (X9_addMetadata_stores_string (heap_of "now" None) 0 "fileVersion" "1.0"
              (heap_of_ok "now" None)) as (h' & Ha & Hs & _).
  exists h'. split; [exact Ha|]. rewrite Hs. apply lookup_insert_eq.
Defined.

(** X10: [addMetadata] with a value that is not a string returns an error and
    stores nothing; but the map nested under [config_snapshot] has been
    created by then if it was missing, so the metadata map has that entry
    afterwards.  Every other entry is kept. *)
Theorem X10_addMetadata_rejects_other h metadata key val :
  metadata_ok h metadata → (∀ s, val ≠ TString s) →
  ∃ h', addMetadata h metadata key val
        = (h', Normal (Some (Errorf "addMetadata: value %[1]v is not a string type, but a %[1]T"
                                    [ArgToken val] None))) ∧
        snapshot h' metadata = snapshot h metadata ∧
        is_Some (map_any h' metadata !! snapshotKey) ∧
        (∀ k, k ≠ snapshotKey → map_any h' metadata !! k = map_any h metadata !! k) ∧
        metadata_ok h' metadata.
Proof.
  intros Hok Hval. unfold addMetadata.
  destruct (addMetadata_prepare h metadata Hok)
    as (h1 & l & sm & Hh1 & Hne & Hk & Hl & -> & [m Hm] & Hkeep).
  cbn zeta. rewrite <- Hh1.
  exists h1. split.
  { destruct val as [c|b|x|s| |]; try reflexivity. by destruct (Hval s). }
  split_and!.
  - unfold snapshot at 1. by rewrite Hk, Hl.
  - rewrite Hk. eauto.
  - done.
  - split; [eauto|]. rewrite Hk. eauto.
Qed.

Lemma X10_addMetadata_rejects_other_witness :
  metadata_ok (heap_of "now" None) 0 ∧ (∀ s, TFloat64 "1.0" ≠ TString s) ∧
  ∃ h', fst (addMetadata (heap_of "now" None) 0 "fileVersion" (TFloat64 "1.0")) = h' ∧
        is_Some (map_any h' 0 !! snapshotKey) ∧ snapshot h' 0 = ∅.
Proof.
  split; [apply heap_of_ok|]. split; [discriminate|].
  destruct (X10_addMetadata_rejects_other (heap_of "now" None) 0 "fileVersion" (TFloat64 "1.0")
              (heap_of_ok "now" None) ltac:(discriminate)) as (h' & Ha & Hs & Hk & _).
  exists h'. split; [by rewrite Ha|]. split; [exact Hk|]. rewrite Hs. reflexivity.
Defined.

(** ** The pool while it runs *)

(** X11: no item is lost or counted twice while the program runs.  At every
    moment the [ItemCount]s of the workers and the items the producer has
    still to send add up to the number M of items of the run, and no
    [ItemCount] has wrapped around: each lies between 0 and M. *)
Theorem X11_items_conserved sprintf_len r writerFactory poolSize spec now start s :
  let M := length (items_of (trace (producer spec now r))) in
  (poolSize < 2 ^ 63)%Z → (Z.of_nat M < 2 ^ 63)%Z →
  rtc (step sprintf_len) (DecodeAndSplitItems r writerFactory poolSize spec now start) s →
  (sum_items (status <$> workers s) + Z.of_nat (length (items_of (prod s))) = Z.of_nat M)%Z ∧
  Forall (λ w, (0 ≤ ItemCount (status w) ≤ Z.of_nat M)%Z) (workers s).
Proof.
  intros M Hint HM Hrtc.
  destruct (rtc_ctl_cnt _ _ _ _ Hrtc (init_ctl _ _ _ _ _ _ Hint)
              (init_cnt _ _ _ _ _ _ HM)) as [_ [_ Hnn Htot _]].
  fold M in Htot. split; [done|].
  apply Forall_forall. intros w Hw.
  apply list_elem_of_split in Hw as (l1 & l2 & Hws).
  rewrite Hws in Hnn, Htot. rewrite fmap_app, fmap_cons in Hnn, Htot.
  apply Forall_app in Hnn as [Hnn1 Hnn2]. apply Forall_cons in Hnn2 as [Hnnw Hnn2].
  rewrite sum_items_app in Htot. cbn [sum_items foldr] in Htot.
  fold (sum_items (status <$> l2)) in Htot.
  pose proof (sum_items_nonneg _ Hnn1). pose proof (sum_items_nonneg _ Hnn2). lia.
Qed.

Lemma X11_items_conserved_witness :
  ∃ s, exec (λ _, 0%Z) [ProducerPrint; Deliver 1] (sample_program NullWriterFactory 2) = Some s ∧
       (sum_items (status <$> workers s) + Z.of_nat (length (items_of (prod s))) = 2)%Z.
Proof.
  destruct (exec (λ _, 0%Z) [ProducerPrint; Deliver 1] (sample_program NullWriterFactory 2))
    as [s|] eqn:E; [|by vm_compute in E].
  exists s. split; [done|].
  exact (proj1 (X11_items_conserved (λ _, 0%Z) (tokens_of sample_doc) NullWriterFactory 2
                  main_spec "2022-08-17T04:22:43Z" (λ _, 0%Z) s
                  ltac:(lia) ltac:(vm_compute; reflexivity) (exec_rtc _ _ _ _ E))).
Defined.

Lemma do_action_null sprintf_len a s s' :
  do_action sprintf_len a s = Some s' →
  Forall (λ w, writer w = NullWriter ∧ ErrorCount (status w) = 0%Z) (workers s) ∧
  Forall (λ st, ErrorCount st = 0%Z) (chStatus s ++ received s) →
  Forall (λ w, writer w = NullWriter ∧ ErrorCount (status w) = 0%Z) (workers s') ∧
  Forall (λ st, ErrorCount st = 0%Z) (chStatus s' ++ received s').
Proof.
  unfold do_action. destruct (crashed s); [done|].
  destruct a as [|n| | | | |n t| |]; intros Ha [Hw Hs];
    case_enabled Ha; simplify_eq; simpl; try done.
  - split; [|done]. apply Forall_insert; [done|].
    eapply Forall_lookup_1 in Hw as [Hwr He]; [|done].
    unfold receive. rewrite Hwr. simpl. done.
  - eapply Forall_lookup_1 in Hw as Hn; [|done]. destruct Hn as [Hwr He].
    split.
    + apply Forall_insert; [done|]. done.
    + rewrite <- app_assoc. apply Forall_app in Hs as [H1 H2].
      apply Forall_app. split; [done|]. apply Forall_app. split; [|done].
      by repeat constructor.
  - split; [done|]. simpl in Hs. apply Forall_cons in Hs as [Hst Hs].
    apply Forall_app in Hs as [H1 H2].
    apply Forall_app. split; [done|]. apply Forall_app. split; [done|].
    by repeat constructor.
Qed.

(** X12: with the no-op writer no write ever fails: in every state of the
    program every worker's [ErrorCount] is 0, and so is that of every status
    sent or collected. *)
Theorem X12_null_writer_no_errors sprintf_len r poolSize spec now start s :
  rtc (step sprintf_len) (DecodeAndSplitItems r NullWriterFactory poolSize spec now start) s →
  Forall (λ w, ErrorCount (status w) = 0%Z) (workers s) ∧
  Forall (λ st, ErrorCount st = 0%Z) (chStatus s ++ received s).
Proof.
  intros Hrtc.
  assert (Forall (λ w, writer w = NullWriter ∧ ErrorCount (status w) = 0%Z) (workers s) ∧
          Forall (λ st, ErrorCount st = 0%Z) (chStatus s ++ received s)) as [H1 H2].
  { remember (DecodeAndSplitItems r NullWriterFactory poolSize spec now start) as s0 eqn:Hs0.
    assert (Forall (λ w, writer w = NullWriter ∧ ErrorCount (status w) = 0%Z) (workers s0) ∧
            Forall (λ st, ErrorCount st = 0%Z) (chStatus s0 ++ received s0)) as H0.
    { subst s0. split; [|constructor]. simpl.
      apply Forall_forall. intros w (j & -> & _)%list_elem_of_fmap. done. }
    clear Hs0. induction Hrtc as [|s1 s2 s3 [a Ha] _ IH]; [done|].
    apply IH. by eapply do_action_null. }
  split; [|done]. eapply Forall_impl; [exact H1|]. by intros w [_ ?].
Qed.

Lemma X12_null_writer_no_errors_witness :
  ∃ s, exec (λ _, 0%Z) schedule_two (sample_program NullWriterFactory 2) = Some s ∧
       Forall (λ st, ErrorCount st = 0%Z) (chStatus s ++ received s).
Proof.
  destruct (exec (λ _, 0%Z) schedule_two (sample_program NullWriterFactory 2))
    as [s|] eqn:E; [|by vm_compute in E].
  exists s. split; [done|].
  exact (proj2 (X12_null_writer_no_errors _ _ _ _ _ _ _ (exec_rtc _ _ _ _ E))).
Defined.

Lemma cnt_bound M s w :
  cnt M s → w ∈ workers s →
  (0 ≤ ItemCount (status w))%Z ∧
  (ItemCount (status w) + Z.of_nat (length (items_of (prod s))) ≤ Z.of_nat M)%Z.
Proof.
  intros [_ Hnn Htot _] Hw.
  apply list_elem_of_split in Hw as (l1 & l2 & Hws).
  rewrite Hws in Hnn, Htot. rewrite fmap_app, fmap_cons in Hnn, Htot.
  apply Forall_app in Hnn as [Hnn1 Hnn2]. apply Forall_cons in Hnn2 as [Hnnw Hnn2].
  rewrite sum_items_app in Htot. cbn [sum_items foldr] in Htot.
  fold (sum_items (status <$> l2)) in Htot.
  pose proof (sum_items_nonneg _ Hnn1). pose proof (sum_items_nonneg _ Hnn2). lia.
Qed.

Lemma do_action_errors sprintf_len M a s s' :
  do_action sprintf_len a s = Some s' → cnt M s →
  Forall (λ w, (0 ≤ ErrorCount (status w) ≤ ItemCount (status w))%Z) (workers s) ∧
  Forall (λ st, (0 ≤ ErrorCount st ≤ ItemCount st)%Z) (chStatus s ++ received s) →
  Forall (λ w, (0 ≤ ErrorCount (status w) ≤ ItemCount (status w))%Z) (workers s') ∧
  Forall (λ st, (0 ≤ ErrorCount st ≤ ItemCount st)%Z) (chStatus s' ++ received s').
Proof.
  unfold do_action. destruct (crashed s); [done|].
  destruct a as [|n| | | | |n t| |]; intros Ha Hcnt [Hw Hs];
    case_enabled Ha; simplify_eq; simpl; try done.
  - split; [|done]. apply Forall_insert; [done|].
    match goal with H : workers s !! n = Some ?w |- _ =>
      pose proof (cnt_bound M s w Hcnt (list_elem_of_lookup_2 _ _ _ H)) as [Hic Hle];
      eapply Forall_lookup_1 in Hw as Hn; [|exact H]
    end.
    match goal with H : prod s = _ |- _ => rewrite H in Hle end.
    change (items_of (SendItem ?v :: ?p)) with (v :: items_of p) in Hle.
    cbn [length] in Hle. destruct Hcnt as [HM _ _ _].
    unfold receive. simpl.
    destruct (Write _ _); simpl; rewrite !wrap_int_small; lia.
  - eapply Forall_lookup_1 in Hw as Hn; [|done].
    split.
    + apply Forall_insert; [done|]. done.
    + rewrite <- app_assoc. apply Forall_app in Hs as [H1 H2].
      apply Forall_app. split; [done|]. apply Forall_app. split; [|done].
      constructor; [exact Hn|constructor].
  - split; [done|]. simpl in Hs. apply Forall_cons in Hs as [Hst Hs].
    apply Forall_app in Hs as [H1 H2].
    apply Forall_app. split; [done|]. apply Forall_app. split; [done|].
    constructor; [exact Hst|constructor].
Qed.

(** X13: a worker counts at most one error per item: in every state of the
    program, for every worker and every status sent or collected, the
    [ErrorCount] lies between 0 and the [ItemCount], whatever the writer
    does. *)
Theorem X13_errors_bounded_by_items sprintf_len r writerFactory poolSize spec now start s :
  (poolSize < 2 ^ 63)%Z →
  (Z.of_nat (length (items_of (trace (producer spec now r)))) < 2 ^ 63)%Z →
  rtc (step sprintf_len) (DecodeAndSplitItems r writerFactory poolSize spec now start) s →
  Forall (λ w, (0 ≤ ErrorCount (status w) ≤ ItemCount (status w))%Z) (workers s) ∧
  Forall (λ st, (0 ≤ ErrorCount st ≤ ItemCount st)%Z) (chStatus s ++ received s).
Proof.
  intros Hint HM Hrtc.
  pose proof (init_ctl r writerFactory poolSize spec now start Hint) as Hctl.
  pose proof (init_cnt r writerFactory poolSize spec now start HM) as Hcnt.
  remember (DecodeAndSplitItems r writerFactory poolSize spec now start) as s0 eqn:Hs0.
  assert (Forall (λ w, (0 ≤ ErrorCount (status w) ≤ ItemCount (status w))%Z) (workers s0) ∧
          Forall (λ st, (0 ≤ ErrorCount st ≤ ItemCount st)%Z) (chStatus s0 ++ received s0))
    as H0.
  { subst s0. split; [|constructor]. simpl.
    apply Forall_forall. intros w (j & -> & _)%list_elem_of_fmap. done. }
  clear Hs0. induction Hrtc as [|s1 s2 s3 [a Ha] _ IH]; [done|].
  apply IH.
  - by eapply do_action_ctl.
  - by eapply do_action_cnt.
  - by eapply do_action_errors.
Qed.

Lemma X13_errors_bounded_by_items_witness :
  ∃ s, exec (λ _, 0%Z) schedule_one
         (sample_program (FileWriterFactory (λ _, ([], None)) failing_writer None) 1) = Some s ∧
       Forall (λ st, (0 ≤ ErrorCount st ≤ ItemCount st)%Z) (chStatus s ++ received s).
Proof.
  destruct (exec (λ _, 0%Z) schedule_one
              (sample_program (FileWriterFactory (λ _, ([], None)) failing_writer None) 1))
    as [s|] eqn:E; [|by vm_compute in E].
  exists s. split; [done|].
  exact (proj2 (X13_errors_bounded_by_items (λ _, 0%Z) (tokens_of sample_doc) _ 1
                  main_spec "2022-08-17T04:22:43Z" (λ _, 0%Z) s
                  ltac:(lia) ltac:(vm_compute; reflexivity) (exec_rtc _ _ _ _ E))).
Defined.





Lemma wrap_int_shift z k : wrap_int (z + k * 2 ^ 64) = wrap_int z.
Proof.
  unfold wrap_int. replace (z + k * 2 ^ 64 + 2 ^ 63)%Z with (z + 2 ^ 63 + k * 2 ^ 64)%Z by lia.
  by rewrite Z.mod_add.
Qed.

Lemma wrap_int_ex z : ∃ k, wrap_int z = (z + k * 2 ^ 64)%Z.
Proof.
  exists (- ((z + 2 ^ 63) `div` 2 ^ 64))%Z. unfold wrap_int.
  pose proof (Z.div_mod (z + 2 ^ 63) (2 ^ 64) ltac:(lia)). lia.
Qed.

Lemma wrap_int_add_l a b : wrap_int (wrap_int a + b) = wrap_int (a + b).
Proof.
  destruct (wrap_int_ex a) as [k ->].
  replace (a + k * 2 ^ 64 + b)%Z with (a + b + k * 2 ^ 64)%Z by lia.
  apply wrap_int_shift.
Qed.

Lemma wrap_int_0 : wrap_int 0 = 0%Z.
Proof. reflexivity. Qed.

Lemma sum_bytes_app l1 l2 : sum_bytes (l1 ++ l2) = (sum_bytes l1 + sum_bytes l2)%Z.
Proof. induction l1 as [|st l1 IH]; simpl; [done|]. rewrite IH. lia. Qed.

Lemma sum_bytes_perm l1 l2 : l1 ≡ₚ l2 → sum_bytes l1 = sum_bytes l2.
Proof. induction 1; simpl; lia. Qed.

Lemma sum_bytes_start f start n k :
  sum_bytes (status <$> (start_worker f start <$> seq k n)) = 0%Z.
Proof. revert k. induction n as [|n IH]; intros k; simpl; [done|]. by rewrite IH. Qed.

Lemma receive_ByteCount sprintf_len v w :
  ByteCount (status (receive sprintf_len v w))
  = wrap_int (ByteCount (status w) + sprintf_len v).
Proof. unfold receive. simpl. by destruct (Write _ _). Qed.

Lemma do_action_byt sprintf_len total a s s' :
  do_action sprintf_len a s = Some s' → ctl s →
  byt sprintf_len total s → byt sprintf_len total s'.
Proof.
  unfold do_action. destruct (crashed s) eqn:Hc; [done|].
  intros Ha [_ _ _ _ _ _ Hcaller] [Htot Hcc].
  destruct a as [|n| | | | |n t| |].
  - destruct (prod s) as [|[] p] eqn:Hp; try done. simplify_eq.
    constructor; simpl; done.
  - destruct (prod s) as [|[] p] eqn:Hp; try done.
    destruct (workers s !! n) as [w|] eqn:Hw; [|done].
    destruct (running w) eqn:Hr; [|done]. simplify_eq.
    destruct (insert_split _ _ _ (receive sprintf_len v w) Hw) as (l1 & l2 & Hws & Hins & _).
    constructor; simpl; [|done].
    rewrite <- Htot, Hins, Hws, !fmap_app, !fmap_cons, !sum_bytes_app.
    change (items_of (SendItem v :: p)) with (v :: items_of p).
    cbn [sum_bytes bytes_of foldr].
    fold (sum_bytes (status <$> l2)). fold (bytes_of sprintf_len (items_of p)).
    rewrite receive_ByteCount.
    destruct (wrap_int_ex (ByteCount (status w) + sprintf_len v)) as [k ->].
    rewrite <- (wrap_int_shift (sum_bytes (status <$> l1) +
                                (ByteCount (status w) + sum_bytes (status <$> l2)) +
                                (sprintf_len v + bytes_of sprintf_len (items_of p))) k).
    f_equal. lia.
  - destruct (prod s) as [|[] p] eqn:Hp; try done.
    destruct (caller s) eqn:Hcl; try done. simplify_eq.
    constructor; simpl; [done|]. by rewrite Hcaller.
  - destruct (prod s) as [|[] p] eqn:Hp; try done; simplify_eq;
      constructor; simpl; done.
  - destruct (prod s) as [|? p] eqn:Hp; try done.
    destruct (prod_panic s); [|done]. simplify_eq.
    constructor; simpl; [by rewrite Hp|done].
  - destruct (caller s) eqn:Hcl; try done.
    destruct (cErrors_closed s) eqn:He; [|done]. simplify_eq.
    constructor; simpl; [done|]. by rewrite Hcaller.
  - destruct (workers s !! n) as [w|] eqn:Hw; [|done].
    destruct (running w) eqn:Hr; [|done].
    destruct (cItems_closed s) eqn:Hi; [|done]. case_bool_decide; [|done].
    simpl in Ha. simplify_eq.
    destruct (insert_split _ _ _
      {| writer := writer w; status := final_status t (status w); running := false |} Hw)
      as (l1 & l2 & Hws & Hins & _).
    constructor; simpl; [|done].
    rewrite <- Htot, Hins, Hws, !fmap_app, !fmap_cons, !sum_bytes_app. done.
  - destruct (caller s) as [|i ic ib|] eqn:Hcl; try done.
    destruct (chStatus s) as [|st b] eqn:Hb; [done|].
    destruct (i <? poolSize s)%Z eqn:Hlt; [|done]. simplify_eq.
    constructor; simpl; [done|].
    rewrite sum_bytes_app. cbn [sum_bytes foldr].
    rewrite wrap_int_add_l. f_equal. lia.
  - destruct (caller s) as [|i ic ib|] eqn:Hcl; try done.
    destruct (i <? poolSize s)%Z eqn:Hlt; [done|]. simplify_eq.
    constructor; simpl; done.
Qed.

(** X15: the byte total of the caller.  With at least one worker, when the
    caller is past its status loop its [itemBytes] is, in 64-bit arithmetic,
    the sum of [len(fmt.Sprintf("%s", i))] over all the items that the
    producer sent: no item's length is lost or counted twice, whichever
    workers took the items and whatever the writer did with them. *)
Theorem X15_byte_total sprintf_len r writerFactory poolSize spec now start s
    itemCount itemBytes :
  (1 ≤ poolSize < 2 ^ 63)%Z →
  rtc (step sprintf_len) (DecodeAndSplitItems r writerFactory poolSize spec now start) s →
  caller s = Finished itemCount itemBytes →
  itemBytes = wrap_int (bytes_of sprintf_len (items_of (trace (producer spec now r)))).
Proof.
  intros [HN Hint] Hrtc Hcl.
  pose proof (rtc_ctl _ _ _ Hrtc (init_ctl _ _ _ _ _ _ Hint)) as Hctl.
  assert (byt sprintf_len (bytes_of sprintf_len (items_of (trace (producer spec now r)))) s)
    as [Htot Hcc].
  { remember (DecodeAndSplitItems r writerFactory poolSize spec now start) as s0 eqn:Hs0.
    assert (byt sprintf_len (bytes_of sprintf_len (items_of (trace (producer spec now r)))) s0)
      as H0.
    { subst s0. constructor; simpl; [|done].
      unfold NewWriterPool. by rewrite sum_bytes_start. }
    pose proof (init_ctl r writerFactory poolSize spec now start Hint) as Hctl0.
    rewrite <- Hs0 in Hctl0.
    clear Hs0 Hctl Hcl. induction Hrtc as [|s1 s2 s3 [a Ha] _ IH]; [done|].
    apply IH; [by eapply do_action_byt|by eapply do_action_ctl]. }
  rewrite Hcl in Hcc.
  destruct (ctl_finished _ _ _ Hctl Hcl) as (Hperm & _ & Hdone).
  destruct Hdone as [Hp _]; [by rewrite (rtc_poolSize _ _ _ Hrtc)|].
  rewrite Hp in Htot. simpl in Htot. rewrite Z.add_0_r in Htot.
  by rewrite Hcc, (sum_bytes_perm _ _ Hperm).
Qed.

Lemma X15_byte_total_witness :
  ∃ s, exec (λ _, 40%Z) schedule_two (sample_program NullWriterFactory 2) = Some s ∧
       caller s = Finished 2 80.
Proof.
  destruct (exec (λ _, 40%Z) schedule_two (sample_program NullWriterFactory 2))
    as [s|] eqn:E; [|by vm_compute in E].
  exists s. split; [done|].
  assert (∃ ic ib, caller s = Finished ic ib) as (ic & ib & Hcl).
  { vm_compute in E. injection E as <-. by eexists _, _. }
  pose proof (X15_byte_total (λ _, 40%Z) (tokens_of sample_doc) NullWriterFactory 2
                main_spec "2022-08-17T04:22:43Z" (λ _, 0%Z) s ic ib
                ltac:(lia) (exec_rtc _ _ _ _ E) Hcl) as Hib.
  assert (ic = 2%Z) as -> by (vm_compute in E; injection E as <-; by injection Hcl as <- _).
  rewrite Hcl, Hib. reflexivity.
Defined.

(** ** The history-file maker *)

Lemma itemCount_from (items : list Byte.byte) (acc : Z) :
  (0 ≤ acc)%Z → (acc + Z.of_nat (length items) < 2 ^ 63)%Z →
  fold_left (λ numItems i, if Byte.eqb i Byte.x7b then wrap_int (numItems + 1) else numItems)
            items acc = (acc + mk_history.itemCount items)%Z ∧
  (0 ≤ mk_history.itemCount items ≤ Z.of_nat (length items))%Z.
Proof.
  unfold mk_history.itemCount. revert acc.
  induction items as [|i items IH]; intros acc Hacc Hlen; cbn [fold_left length] in *.
  { split; lia. }
  rewrite Nat2Z.inj_succ in Hlen |- *.
  destruct (IH 0%Z ltac:(lia) ltac:(lia)) as [_ Hb].
  destruct (Byte.eqb i Byte.x7b).
  - rewrite !wrap_int_small by lia.
    destruct (IH (acc + 1)%Z ltac:(lia) ltac:(lia)) as [-> _].
    destruct (IH (0 + 1)%Z ltac:(lia) ltac:(lia)) as [-> _]. lia.
  - destruct (IH acc ltac:(lia) ltac:(lia)) as [-> _]. lia.
Qed.

Lemma itemCount_app (a b : list Byte.byte) :
  (Z.of_nat (length (a ++ b)) < 2 ^ 63)%Z →
  mk_history.itemCount (a ++ b) = (mk_history.itemCount a + mk_history.itemCount b)%Z.
Proof.
  rewrite length_app, Nat2Z.inj_add. intros Hlen.
  destruct (itemCount_from a 0 ltac:(lia) ltac:(lia)) as [_ Ha].
  unfold mk_history.itemCount at 1. rewrite fold_left_app.
  fold (mk_history.itemCount a).
  destruct (itemCount_from b (mk_history.itemCount a) ltac:(lia) ltac:(lia)) as [-> _]. done.
Qed.

(** X16: [itemCount] counts without overflow on every byte slice: the count
    lies between 0 and the length, and the count of two slices put together
    is the sum of their counts. *)
Theorem X16_itemCount_additive (a b : list Byte.byte) :
  (Z.of_nat (length (a ++ b)) < 2 ^ 63)%Z →
  mk_history.itemCount (a ++ b) = (mk_history.itemCount a + mk_history.itemCount b)%Z ∧
  (0 ≤ mk_history.itemCount a ≤ Z.of_nat (length a))%Z.
Proof.
  intros Hlen. split; [by apply itemCount_app|].
  rewrite length_app, Nat2Z.inj_add in Hlen.
  by destruct (itemCount_from a 0 ltac:(lia) ltac:(lia)) as [_ Ha].
Qed.

Lemma X16_itemCount_additive_witness :
  mk_history.itemCount ([Byte.x7b; Byte.x7d] ++ [Byte.x2c; Byte.x7b; Byte.x7d]) = 2%Z.
Proof.
  destruct (X16_itemCount_additive [Byte.x7b; Byte.x7d] [Byte.x2c; Byte.x7b; Byte.x7d]
              ltac:(vm_compute; reflexivity)) as [-> _].
  reflexivity.
Defined.

(** X17: the number of chunks.  For a positive request and a block of at
    least one item the program writes the least number of blocks that holds
    strictly more items than were asked for: one block more than needed when
    the request is a multiple of the block size. *)
Theorem X17_more_items_than_requested (requestedItemCount itemsSize : Z) :
  (0 < requestedItemCount)%Z → (0 < itemsSize)%Z →
  (requestedItemCount + itemsSize < 2 ^ 63)%Z →
  ∃ itemChunks,
    mk_history.item_chunks requestedItemCount itemsSize = Some itemChunks ∧
    ((itemChunks - 1) * itemsSize ≤ requestedItemCount < itemChunks * itemsSize)%Z ∧
    wrap_int (itemChunks * itemsSize) = (itemChunks * itemsSize)%Z.
Proof.
  intros Hr Hs Hsum. unfold mk_history.item_chunks.
  destruct (Z.ltb_spec 0 requestedItemCount); [|lia].
  destruct (Z.eqb_spec itemsSize 0); [lia|].
  rewrite Z.quot_div_nonneg by lia.
  pose proof (Z.div_mod requestedItemCount itemsSize ltac:(lia)) as Hdm.
  pose proof (Z.mod_pos_bound requestedItemCount itemsSize ltac:(lia)) as Hm.
  assert (0 ≤ requestedItemCount `div` itemsSize ≤ requestedItemCount)%Z as Hq.
  { split; [apply Z.div_pos; lia|]. apply Z.div_le_upper_bound; nia. }
  eexists. split; [reflexivity|].
  rewrite (wrap_int_small (_ + 1)) by lia.
  split; [nia|]. apply wrap_int_small. nia.
Qed.

Lemma X17_more_items_than_requested_witness :
  mk_history.item_chunks 1296 648 = Some 3%Z.
Proof.
  destruct (X17_more_items_than_requested 1296 648 ltac:(lia) ltac:(lia) ltac:(lia))
    as (c & Hc & _ & _).
  rewrite Hc. f_equal. vm_compute in Hc. by injection Hc.
Defined.

Lemma wrap_int_idemp z : wrap_int (wrap_int z) = wrap_int z.
Proof.
  transitivity (wrap_int (wrap_int z + 0)); [f_equal; lia|].
  rewrite wrap_int_add_l. f_equal. lia.
Qed.

Lemma wrap_int_add_r a b : wrap_int (a + wrap_int b) = wrap_int (a + b).
Proof. rewrite Z.add_comm, wrap_int_add_l. f_equal. lia. Qed.

Lemma wrap_int_range z : (- 2 ^ 63 ≤ wrap_int z < 2 ^ 63)%Z.
Proof. unfold wrap_int. pose proof (Z.mod_pos_bound (z + 2 ^ 63) (2 ^ 64) ltac:(lia)). lia. Qed.

Lemma write_blocks_ok ok items itemChunks (n : nat) :
  (∀ k, ok k = true) → (itemChunks < 2 ^ 63)%Z →
  ∀ fuel c d bytesWritten,
    (0 ≤ c)%Z → n = Z.to_nat (itemChunks - c) → (n < fuel)%nat →
    wrap_int bytesWritten = bytesWritten →
    ∃ k, mk_history.write_blocks fuel ok items itemChunks c d bytesWritten
         = Normal (inl ({| mk_history.written :=
                             mk_history.written d ++ mk_history.item_blocks items n;
                           mk_history.calls := k |},
                        wrap_int (bytesWritten
                                  + Z.of_nat (length (mk_history.item_blocks items n))))).
Proof.
  intros Hok Hint. induction n as [|n IH]; intros fuel c d bw Hc Hn Hfuel Hbw;
    (destruct fuel as [|fuel]; [lia|]); cbn [mk_history.write_blocks].
  - destruct (Z.ltb_spec c itemChunks); [lia|].
    exists (mk_history.calls d). cbn [mk_history.item_blocks length].
    rewrite app_nil_r, Z.add_0_r, Hbw. by destruct d.
  - destruct (Z.ltb_spec c itemChunks); [|lia].
    unfold mk_history.dest_Write. rewrite !Hok.
    rewrite (wrap_int_small (itemChunks - 1)) by lia.
    rewrite (wrap_int_small (c + 1)) by lia.
    destruct (Z.ltb_spec c (itemChunks - 1)).
    + cbn [mk_history.written mk_history.calls].
      edestruct (IH fuel (c + 1)%Z) as [k ->]; [lia|lia|lia|apply wrap_int_idemp|].
      exists k. cbn [mk_history.written]. destruct n as [|n]; [lia|].
      do 3 f_equal.
      * cbn [mk_history.item_blocks]. by rewrite <- !app_assoc.
      * rewrite wrap_int_add_l, <- Z.add_assoc, wrap_int_add_l. f_equal.
        change (mk_history.item_blocks items (S (S n)))
          with (items ++ Byte.x2c :: mk_history.item_blocks items (S n)).
        rewrite length_app. cbn [length]. lia.
    + edestruct (IH fuel (c + 1)%Z) as [k ->]; [lia|lia|lia|apply wrap_int_idemp|].
      exists k. cbn [mk_history.written]. destruct n as [|n]; [|lia].
      do 3 f_equal.
      * cbn [mk_history.item_blocks]. by rewrite !app_nil_r.
      * rewrite wrap_int_add_l. f_equal. cbn [mk_history.item_blocks length].
        rewrite app_nil_r. lia.
Qed.

Lemma item_chunks_range requestedItemCount itemsSize itemChunks :
  mk_history.item_chunks requestedItemCount itemsSize = Some itemChunks →
  (itemChunks < 2 ^ 63)%Z.
Proof.
  unfold mk_history.item_chunks. intros H.
  destruct (0 <? requestedItemCount)%Z; [|by simplify_eq].
  destruct (itemsSize =? 0)%Z; [done|]. simplify_eq. apply wrap_int_range.
Qed.

(** X18: when every write succeeds and the number of chunks is defined,
    [main] returns having written the beginning, that many blocks of items
    with a comma between two blocks and none after the last, the ending and
    a new line; and the byte count of its report is, in 64-bit arithmetic,
    the length of what it wrote. *)
Theorem X18_document_written ok part1 items requestedItemCount itemChunks :
  (∀ k, ok k = true) →
  mk_history.item_chunks requestedItemCount (mk_history.itemCount items) = Some itemChunks →
  mk_history.main ok part1 items requestedItemCount
  = Normal (mk_history.document part1 items (Z.to_nat itemChunks),
            mk_history.Reported
              itemChunks
              (wrap_int (itemChunks * mk_history.itemCount items))
              (wrap_int (Z.of_nat (length (mk_history.document part1 items
                                                                (Z.to_nat itemChunks)))))).
Proof.
  intros Hok Hchunks. unfold mk_history.main. rewrite Hchunks.
  unfold mk_history.dest_Write at 1. rewrite Hok. cbn [mk_history.written mk_history.calls].
  edestruct (write_blocks_ok ok items itemChunks (Z.to_nat itemChunks) Hok
               (item_chunks_range _ _ _ Hchunks) (S (Z.to_nat itemChunks)) 0%Z) as [k ->];
    [lia|f_equal; lia|lia|apply wrap_int_idemp|].
  unfold mk_history.dest_Write. rewrite !Hok. cbn [mk_history.written mk_history.calls].
  unfold mk_history.document. f_equal. apply (f_equal2 pair).
  - by rewrite <- !app_assoc.
  - f_equal. rewrite wrap_int_add_r, wrap_int_add_l, <- Z.add_assoc, wrap_int_add_l.
    f_equal. rewrite !length_app. cbn [length]. lia.
Qed.

Lemma X18_document_written_witness :
  mk_history.main (λ _, true) [Byte.x7b; Byte.x5b] [Byte.x7b; Byte.x7d] 1
  = Normal ([Byte.x7b; Byte.x5b; Byte.x7b; Byte.x7d; Byte.x2c; Byte.x7b; Byte.x7d;
             Byte.x5d; Byte.x7d; Byte.x0a],
            mk_history.Reported 2 2 10).
Proof.
  exact (X18_document_written (λ _, true) [Byte.x7b; Byte.x5b] [Byte.x7b; Byte.x7d] 1 2
           (λ _, eq_refl) eq_refl).
Defined.

Lemma itemCount_no_brace items :
  Forall (λ i, i ≠ Byte.x7b) items → mk_history.itemCount items = 0%Z.
Proof.
  unfold mk_history.itemCount. induction 1 as [|i items Hi _ IH]; [done|].
  cbn [fold_left]. destruct (Byte.eqb i Byte.x7b) eqn:E; [|exact IH].
  by apply Byte.byte_dec_bl in E.
Qed.

(** X19: when the embedded block of items holds no opening brace and a
    positive number of items is asked for, [main] panics on an integer
    division by zero, before anything is written. *)
Theorem X19_no_item_in_the_block ok part1 items requestedItemCount :
  Forall (λ i, i ≠ Byte.x7b) items → (0 < requestedItemCount)%Z →
  mk_history.main ok part1 items requestedItemCount = Panic "integer divide by zero".
Proof.
  intros Hitems Hr. unfold mk_history.main, mk_history.item_chunks.
  rewrite (itemCount_no_brace _ Hitems).
  by destruct (Z.ltb_spec 0 requestedItemCount); [|lia].
Qed.

Lemma X19_no_item_in_the_block_witness :
  mk_history.main (λ _, true) [Byte.x7b; Byte.x5b] [Byte.x5b; Byte.x5d] 500
  = Panic "integer divide by zero".
Proof.
  apply X19_no_item_in_the_block; [|lia].
  repeat constructor; discriminate.
Defined.

(** X20: the item count of the report.  The blocks written hold as many
    opening braces as the number of blocks times the count of one block:
    the commas between the blocks add none. *)
Theorem X20_items_in_the_blocks (items : list Byte.byte) (n : nat) :
  (Z.of_nat (length (mk_history.item_blocks items n)) < 2 ^ 63)%Z →
  mk_history.itemCount (mk_history.item_blocks items n)
  = (Z.of_nat n * mk_history.itemCount items)%Z.
Proof.
  induction n as [|n IH]; [done|]. intros Hlen.
  change (mk_history.item_blocks items (S n))
    with (items ++ match n with
                   | O => []
                   | S _ => Byte.x2c :: mk_history.item_blocks items n
                   end) in *.
  rewrite (itemCount_app _ _ Hlen).
  rewrite length_app in Hlen.
  destruct n as [|n].
  - change (mk_history.itemCount []) with 0%Z. lia.
  - cbn [length] in Hlen.
    change (Byte.x2c :: mk_history.item_blocks items (S n))
      with ([Byte.x2c] ++ mk_history.item_blocks items (S n)).
    rewrite (itemCount_app [Byte.x2c] (mk_history.item_blocks items (S n)))
      by (rewrite length_app; cbn [length]; lia).
    rewrite IH by lia. change (mk_history.itemCount [Byte.x2c]) with 0%Z. lia.
Qed.

Lemma X20_items_in_the_blocks_witness :
  mk_history.itemCount (mk_history.item_blocks [Byte.x7b; Byte.x7d] 3) = 3%Z.
Proof.
  rewrite X20_items_in_the_blocks; [reflexivity|vm_compute; reflexivity].
Defined.

(** ** The byte count of the final report *)

Lemma byteCountSI_loop_ok (b : Z) (fuel : nat) :
  (b < 2 ^ 63)%Z →
  ∀ n div exp,
    (1 ≤ n < 2 ^ Z.of_nat fuel)%Z → (0 < div)%Z → n = (b `div` div)%Z →
    (0 ≤ exp)%Z → div = (1000 ^ (exp + 1))%Z →
    ∃ div' exp',
      byteCountSI_loop fuel n div exp = Normal (div', exp') ∧
      (0 ≤ exp')%Z ∧ div' = (1000 ^ (exp' + 1))%Z ∧
      (div' ≤ b < 1000 * div')%Z.
Proof.
  intros Hb. induction fuel as [|fuel IH]; intros n div exp Hn Hdiv Hnb Hexp Hpow.
  { simpl in Hn. lia. }
  cbn [byteCountSI_loop].
  assert (div * n ≤ b < div * (n + 1))%Z as Hbn.
  { pose proof (Z.div_mod b div ltac:(lia)) as Hdm.
    pose proof (Z.mod_pos_bound b div Hdiv). subst n. nia. }
  destruct (Z.leb_spec 1000 n) as [Hge|Hlt].
  - assert (exp + 1 < 7)%Z as Hexp7.
    { destruct (Z.lt_ge_cases (exp + 1) 7) as [|Hge7]; [done|].
      pose proof (Z.pow_le_mono_r 1000 7 (exp + 1) ltac:(lia) Hge7) as Hp.
      change (1000 ^ 7)%Z with 1000000000000000000000%Z in Hp.
      change (2 ^ 63)%Z with 9223372036854775808%Z in Hb. nia. }
    rewrite (wrap_int_small (exp + 1)) by lia.
    rewrite (wrap_int_small (div * 1000)) by nia.
    rewrite Z.quot_div_nonneg by lia.
    apply IH.
    + split; [apply Z.div_le_lower_bound; lia|].
      apply Z.div_lt_upper_bound; [lia|].
      rewrite Nat2Z.inj_succ, Z.pow_succ_r in Hn by lia. lia.
    + lia.
    + subst n. rewrite Z.div_div by lia. done.
    + lia.
    + subst div. replace (exp + 1 + 1)%Z with (Z.succ (exp + 1)) by lia.
      rewrite Z.pow_succ_r by lia. lia.
  - exists div, exp. split_and!; [done|done|done|nia|nia].
Qed.

(** X21: [byteCountSI] on every value of an [int] from 1000 on: the loop
    ends, neither [div] nor [exp] overflows, and the index into ["kMGTPE"]
    is in range, so that the function does not panic; [div] is the power
    [1000 ^ (exp + 1)] that goes with the prefix, and the quotient that is
    printed lies between 1 (included) and 1000 (excluded). *)
Theorem X21_byteCountSI_scale (b : Z) :
  (1000 ≤ b < 2 ^ 63)%Z →
  ∃ div exp prefix,
    byteCountSI b = Normal (ScaledBytes b div prefix) ∧
    (0 ≤ exp ≤ 5)%Z ∧ div = (1000 ^ (exp + 1))%Z ∧
    String.get (Z.to_nat exp) "kMGTPE" = Some prefix ∧
    (div ≤ b < 1000 * div)%Z.
Proof.
  intros [Hlo Hhi]. unfold byteCountSI.
  destruct (Z.ltb_spec b 1000); [lia|].
  destruct (byteCountSI_loop_ok b 64 Hhi (b ÷ 1000) 1000 0)
    as (div & exp & -> & Hexp & Hdiv & Hb).
  - rewrite Z.quot_div_nonneg by lia. split; [apply Z.div_le_lower_bound; lia|].
    apply Z.div_lt_upper_bound; [lia|].
    change (2 ^ 63)%Z with 9223372036854775808%Z in Hhi.
    change (2 ^ Z.of_nat 64)%Z with 18446744073709551616%Z. lia.
  - lia.
  - by rewrite Z.quot_div_nonneg by lia.
  - lia.
  - reflexivity.
  - assert (exp ≤ 5)%Z as Hexp5.
    { destruct (Z.le_gt_cases exp 5) as [|Hgt]; [done|].
      pose proof (Z.pow_le_mono_r 1000 7 (exp + 1) ltac:(lia) ltac:(lia)) as Hp.
      change (1000 ^ 7)%Z with 1000000000000000000000%Z in Hp.
      change (2 ^ 63)%Z with 9223372036854775808%Z in Hhi.
      rewrite <- Hdiv in Hp. lia. }
    destruct (Z.ltb_spec exp 0); [lia|].
    exists div, exp.
    assert (exp = 0 ∨ exp = 1 ∨ exp = 2 ∨ exp = 3 ∨ exp = 4 ∨ exp = 5)%Z
      as [->|[->|[->|[->|[->| ->]]]]] by lia;
      eexists; (split_and!; [reflexivity|lia|lia|exact Hdiv|reflexivity|lia|lia]).
Qed.

Lemma X21_byteCountSI_scale_witness :
  byteCountSI 9223372036854775807 = Normal (ScaledBytes 9223372036854775807
                                                        1000000000000000000 (Ascii.ascii_of_nat 69)).
Proof.
  destruct (X21_byteCountSI_scale 9223372036854775807 ltac:(lia)) as (div & exp & c & H & _).
  rewrite H. vm_compute in H. by injection H as <- <-.
Defined.
